(** * Prow storage layout: path derivation, build discovery, ranking, log scanning

    A shallow embedding of [shared/prow/prow.go] (package [prow] of
    knative/test-infra, vendored in the serving repository) together with
    the pieces of the Go standard library whose behaviour the package
    depends on ([path.Join], [path.Split], [strconv.Itoa], [strconv.Atoi],
    [strings.TrimRight], [strings.Fields], [sort.Slice]).

    Go values are represented as follows:
    - [string] is a sequence of bytes: Rocq's [string] (a list of 8-bit
      [ascii]); the byte-level algorithms work on [list ascii], as Go's work
      on [[]byte];
    - [int] and [int64] are [Z]; the only place where the 64-bit range
      matters is [strconv.Atoi], which rejects values outside it;
    - a [(T, error)] result is a pair [T * option error], [None] being [nil];
    - a panic or a call of [os.Exit] is an explicit [outcome]. *)

From Stdlib Require Import ZArith List String Ascii Bool Lia.
From Stdlib Require Import Permutation Sorted.
Import ListNotations.

Local Open Scope string_scope.
Local Open Scope Z_scope.

(** ** Bytes and strings *)

Definition bytes := list ascii.

Definition to_bytes (s : string) : bytes := list_ascii_of_string s.
Definition of_bytes (b : bytes) : string := string_of_list_ascii b.

Definition is_slash (c : ascii) : bool := Ascii.eqb c "/".
Definition is_dot (c : ascii) : bool := Ascii.eqb c ".".

(** ** Package strconv *)

Module strconv.

(** Errors of the package: [ErrSyntax] and [ErrRange] (wrapped in a
    [*NumError] by Go). *)
Inductive NumError := ErrSyntax | ErrRange.

Definition maxInt64 : Z := 9223372036854775807.
Definition minInt64 : Z := -9223372036854775808.

Definition digit_char (d : Z) : ascii := ascii_of_N (Z.to_N (48 + d)).

(** [formatBits], base 10: the digits are produced from the least
    significant one, [us] being divided by 10 while it is at least 10.
    [fuel] bounds the number of iterations. *)
Fixpoint format_digits (fuel : nat) (us : Z) (acc : bytes) : bytes :=
  match fuel with
  | O => acc
  | S fuel' =>
      if us <? 10 then digit_char us :: acc
      else format_digits fuel' (us / 10) (digit_char (us mod 10) :: acc)
  end.

Definition digits_fuel (us : Z) : nat := S (Z.to_nat (Z.log2 us)).

Definition FormatInt (i : Z) : bytes :=
  if i <? 0 then "-"%char :: format_digits (digits_fuel (- i)) (- i) []
  else format_digits (digits_fuel i) i [].

(** [strconv.Itoa(i)] is [FormatInt(int64(i), 10)]. *)
Definition Itoa (i : Z) : string := of_bytes (FormatInt i).

Definition is_digit (c : ascii) : bool :=
  let n := N_of_ascii c in ((48 <=? n) && (n <=? 57))%N.

Definition digit_val (c : ascii) : Z := Z.of_N (N_of_ascii c) - 48.

(** The digit loop of [ParseUint] in base 10: [None] on a byte that is
    not a decimal digit (underscores are only accepted in base 0). *)
Fixpoint parse_digits (s : bytes) (n : Z) : option Z :=
  match s with
  | [] => Some n
  | c :: s' =>
      if is_digit c then parse_digits s' (n * 10 + digit_val c) else None
  end.

(** [ParseInt(s, 10, 64)]: an empty string is a syntax error; one leading
    sign is picked off; the magnitude is parsed and checked against the
    range of [int64], the nearest bound being returned with [ErrRange]. *)
Definition ParseInt (s : bytes) : Z * option NumError :=
  match s with
  | [] => (0, Some ErrSyntax)
  | c :: s' =>
      let neg := Ascii.eqb c "-" in
      let body := if Ascii.eqb c "+" || neg then s' else s in
      match body with
      | [] => (0, Some ErrSyntax)
      | _ =>
          match parse_digits body 0 with
          | None => (0, Some ErrSyntax)
          | Some un =>
              if negb neg && (maxInt64 <? un) then (maxInt64, Some ErrRange)
              else if neg && (- minInt64 <? un) then (minInt64, Some ErrRange)
              else (if neg then - un else un, None)
          end
      end
  end.

(** [strconv.Atoi(s)]: the fast path for short strings computes the same
    value as [ParseInt(s, 10, 0)], which is the slow path. *)
Definition Atoi (s : string) : Z * option NumError := ParseInt (to_bytes s).

End strconv.

(** ** Package strings *)

Module strings.

Definition in_cutset (cutset : bytes) (c : ascii) : bool :=
  existsb (Ascii.eqb c) cutset.

(** Drops the leading bytes that belong to [cutset]. *)
Fixpoint trim_left (cutset s : bytes) : bytes :=
  match s with
  | [] => []
  | c :: s' => if in_cutset cutset c then trim_left cutset s' else s
  end.

(** [strings.TrimRight(s, cutset)]: [s] without its trailing bytes that
    belong to [cutset] (an ASCII cutset, as at its use in this package). *)
Definition TrimRight (s cutset : string) : string :=
  of_bytes (rev (trim_left (to_bytes cutset) (rev (to_bytes s)))).

(** The white space of [unicode.IsSpace] in the Latin-1 range below 128:
    tab, line feed, vertical tab, form feed, carriage return and space. *)
Definition asciiSpace (c : ascii) : bool :=
  let n := N_of_ascii c in (((9 <=? n) && (n <=? 13)) || (n =? 32))%N.

(** The number of bytes of the white-space rune that [s] starts with, [0]
    when it does not start with one. Beyond the ASCII ones,
    [unicode.IsSpace] accepts U+0085, U+00A0, U+1680, U+2000 to U+200A,
    U+2028, U+2029, U+202F, U+205F and U+3000, met here in their UTF-8
    encodings (a leading byte of such an encoding is never inside another
    rune, so no other decoding state is needed). *)
Definition space_width (s : bytes) : nat :=
  match map N_of_ascii s with
  | [] => O
  | 194%N :: c1 :: _ => if ((c1 =? 133) || (c1 =? 160))%N then 2%nat else O
  | 225%N :: 154%N :: 128%N :: _ => 3%nat
  | 226%N :: 128%N :: c2 :: _ =>
      if (((128 <=? c2) && (c2 <=? 138)) || (c2 =? 168) || (c2 =? 169)
          || (c2 =? 175))%N then 3%nat else O
  | 226%N :: 129%N :: 159%N :: _ => 3%nat
  | 227%N :: 128%N :: 128%N :: _ => 3%nat
  | _ :: _ => match s with
              | c :: _ => if asciiSpace c then 1%nat else O
              | [] => O
              end
  end.

Definition flush (cur : bytes) : list string :=
  match cur with
  | [] => []
  | _ => [of_bytes (rev cur)]
  end.

(** The field under construction is [cur], kept in reverse; [skip] counts
    the bytes still to pass of the white-space rune being read. *)
Fixpoint fields_loop (s : bytes) (skip : nat) (cur : bytes) : list string :=
  match s with
  | [] => flush cur
  | c :: s' =>
      match skip with
      | S k => fields_loop s' k cur
      | O =>
          match space_width s with
          | O => fields_loop s' O (c :: cur)
          | S k => (flush cur ++ fields_loop s' k [])%list
          end
      end
  end.

(** [strings.Fields(s)]: the maximal runs of bytes of [s] without white
    space. *)
Definition Fields (s : string) : list string :=
  fields_loop (to_bytes s) O [].

Fixpoint has_prefix (p s : bytes) : option bytes :=
  match p, s with
  | [], _ => Some s
  | a :: p', b :: s' => if Ascii.eqb a b then has_prefix p' s' else None
  | _ :: _, [] => None
  end.

(** [strings.TrimSuffix(s, suffix)] *)
Definition TrimSuffix (s suffix : string) : string :=
  match has_prefix (rev (to_bytes suffix)) (rev (to_bytes s)) with
  | Some r => of_bytes (rev r)
  | None => s
  end.

End strings.

(** ** Package path *)

Module path.

(** [r+1 == n || path[r+1] == '/'] for the rest [r] of the path after the
    current byte: the element ends here. *)
Definition element_ends (r : bytes) : bool :=
  match r with
  | [] => true
  | c :: _ => is_slash c
  end.

(** The state of the loop of [Clean]: [rest] is [path[r:]]; [out] holds the
    [w] bytes written so far, the last one first; [dotdot] is the index in
    the output where [..] must stop. The lazily allocated buffer of the Go
    code is represented by its contents. *)
Record cleaner := mkCleaner {
  rest : bytes;
  out : bytes;
  dotdot : nat
}.

(** [for ; r < n && path[r] != '/'; r++ { out.append(path[r]) }] *)
Fixpoint copy_element (r o : bytes) : bytes * bytes :=
  match r with
  | [] => ([], o)
  | c :: r' => if is_slash c then (r, o) else copy_element r' (c :: o)
  end.

(** [for out.w > dotdot && out.index(out.w) != '/' { out.w-- }], entered
    after a first [out.w--]: [c] is the byte at index [out.w], [o] the
    [out.w] bytes before it. *)
Fixpoint backtrack_loop (c : ascii) (o : bytes) (dd : nat) : bytes :=
  match o with
  | [] => []
  | c' :: o' =>
      if (dd <? List.length o)%nat && negb (is_slash c)
      then backtrack_loop c' o' dd
      else o
  end.

Definition backtrack (o : bytes) (dd : nat) : bytes :=
  match o with
  | [] => []
  | c :: o' => backtrack_loop c o' dd
  end.

(** One iteration of the loop of [Clean], [None] when [r < n] fails. *)
Definition clean_step (rooted : bool) (st : cleaner) : option cleaner :=
  match rest st with
  | [] => None
  | c :: r1 =>
      if is_slash c then
        (* empty path element *)
        Some (mkCleaner r1 (out st) (dotdot st))
      else if is_dot c && element_ends r1 then
        (* . element *)
        Some (mkCleaner r1 (out st) (dotdot st))
      else if is_dot c &&
              match r1 with
              | c1 :: r2 => is_dot c1 && element_ends r2
              | [] => false
              end then
        (* .. element: remove to last / *)
        let r2 := tl r1 in
        if (dotdot st <? List.length (out st))%nat then
          (* can backtrack *)
          Some (mkCleaner r2 (backtrack (out st) (dotdot st)) (dotdot st))
        else if negb rooted then
          (* cannot backtrack, but not rooted, so append .. element *)
          let o1 := if (0 <? List.length (out st))%nat
                    then "/"%char :: out st else out st in
          let o2 := "."%char :: "."%char :: o1 in
          Some (mkCleaner r2 o2 (List.length o2))
        else Some (mkCleaner r2 (out st) (dotdot st))
      else
        (* real path element; add slash if needed *)
        let w := List.length (out st) in
        let o1 := if (rooted && negb (w =? 1)%nat)
                     || (negb rooted && negb (w =? 0)%nat)
                  then "/"%char :: out st else out st in
        let '(r', o2) := copy_element (rest st) o1 in
        Some (mkCleaner r' o2 (dotdot st))
  end.

Fixpoint clean_loop (fuel : nat) (rooted : bool) (st : cleaner) : cleaner :=
  match fuel with
  | O => st
  | S fuel' =>
      match clean_step rooted st with
      | None => st
      | Some st' => clean_loop fuel' rooted st'
      end
  end.

(** [path.Clean]: every iteration of the loop consumes at least one byte,
    so the length of the path is fuel enough ([clean_loop_consumes]). *)
Definition clean_bytes (p : bytes) : bytes :=
  match p with
  | [] => ["."%char]
  | c :: p' =>
      let rooted := is_slash c in
      let st0 := if rooted then mkCleaner p' ["/"%char] 1
                 else mkCleaner p [] 0 in
      let st := clean_loop (List.length p) rooted st0 in
      match out st with
      | [] => ["."%char]
      | o => rev o
      end
  end.

Definition Clean (p : string) : string := of_bytes (clean_bytes (to_bytes p)).

(** The loop of [path.Join]: the elements, from the first one that is not
    empty, are written one after the other, a slash before each but the
    first. *)
Fixpoint join_loop (buf : bytes) (elem : list string) : bytes :=
  match elem with
  | [] => buf
  | e :: elem' =>
      let b := to_bytes e in
      match buf, b with
      | [], [] => join_loop buf elem'
      | [], _ => join_loop b elem'
      | _, _ => join_loop (buf ++ "/"%char :: b)%list elem'
      end
  end.

Definition total_size (elem : list string) : nat :=
  fold_left (fun n e => (n + String.length e)%nat) elem O.

(** [path.Join(elem...)] *)
Definition Join (elem : list string) : string :=
  if (total_size elem =? 0)%nat then ""
  else of_bytes (clean_bytes (join_loop [] elem)).

(** [strings.LastIndex(path, "/") + 1], counted on the reversed path:
    the bytes after the last slash, and what precedes them. *)
Fixpoint split_rev (r : bytes) (file : bytes) : bytes * bytes :=
  match r with
  | [] => ([], file)
  | c :: r' => if is_slash c then (rev r, file) else split_rev r' (c :: file)
  end.

(** [path.Split(path)]: [(path[:i+1], path[i+1:])] for [i] the index of
    the last slash. *)
Definition Split (p : string) : string * string :=
  let '(d, f) := split_rev (rev (to_bytes p)) [] in (of_bytes d, of_bytes f).

End path.


(** ** Outcomes and errors *)

(** How a Go call ends: it returns, it panics, or the process exits. *)
Inductive outcome (A : Type) : Type :=
| Returns (a : A)
| Panics (msg : string)
| Exits (code : Z).

Arguments Returns {A} a.
Arguments Panics {A} msg.
Arguments Exits {A} code.

(** JSON values, for the open-ended metadata of [finished.json]. *)
#[warnings="-register-all"]
Inductive json : Type :=
| JNull
| JBool (b : bool)
| JNumber (n : Z)
| JString (s : string)
| JArray (l : list json)
| JObject (fields : list (string * json)).

(** The values of Go's [error] interface that reach this package. *)
Inductive error : Type :=
| NumError (e : strconv.NumError)
| StorageError (msg : string)
| DecodeError (msg : string).

Definition wrap_num (r : Z * option strconv.NumError) : Z * option error :=
  (fst r, option_map NumError (snd r)).

(** ** The storage collaborator (package gcs) *)

(** What a [bufio.Scanner] obtains from an open reader: the lines that
    successive calls of [Scan] and [Text] yield, and the value of [Err]
    once [Scan] has returned false ([None] at the end of the stream, the
    error otherwise: a failed read, or a line too long for the scanner). *)
Record Reader := mkReader {
  reader_lines : list string;
  reader_err : option error
}.

(** Modelled from the spec: package [gcs] is not part of the source; these
    are the operations of the storage collaborator of section 6 of the
    specification, with the signatures under which [prow.go] calls them
    (the context argument is left out). The storage is read-only, so one
    value of this record is one state of the bucket. A pointer result may
    be nil: [NewReader] returns an [option Reader]. *)
Record GCS := mkGCS {
  Exist : string -> string -> bool;
  Read : string -> string -> string * option error;
  ListDirectChildren : string -> string -> list string;
  NewReader : string -> string -> option Reader * option error
}.

(** The calls made to the collaborator, and the release of a reader. *)
Inductive event : Type :=
| EvRead (bucket object : string)
| EvOpen (bucket object : string)
| EvClose (bucket object : string).

(** ** Package prow *)

(** OrgName is the name of knative org *)
Definition OrgName : string := "knative".
(** BucketName is the gcs bucket for all knative builds *)
Definition BucketName : string := "knative-prow".
(** Latest is the filename storing latest build number *)
Definition Latest : string := "latest-build.txt".
(** BuildLog is the filename for build log *)
Definition BuildLog : string := "build-log.txt".
(** StartedJSON is the json file containing build started info *)
Definition StartedJSON : string := "started.json".
(** FinishedJSON is the json file containing build finished info *)
Definition FinishedJSON : string := "finished.json".
(** ArtifactsDir is the dir containing artifacts *)
Definition ArtifactsDir : string := "artifacts".

Definition PresubmitJob : string := "presubmit".
Definition PostsubmitJob : string := "postsubmit".
Definition PeriodicJob : string := "periodic".
Definition BatchJob : string := "batch".

(** A replaceable [func(format string, v ...interface{})]: what a call of
    it does once the message is written. *)
Inductive hook_result : Type :=
| HookExits (code : Z)
| HookReturns.

Definition fatal_hook := string -> string -> hook_result.

(** [log.Fatalf] is [Printf] followed by [os.Exit(1)]. *)
Definition log_Fatalf : fatal_hook := fun _ _ => HookExits 1.

(** [var logFatalf = log.Fatalf]; nothing in the package assigns to it. *)
Definition logFatalf : fatal_hook := log_Fatalf.

Module Build.
Record t := mk {
  JobName : string;
  StoragePath : string;
  BuildID : Z;
  Bucket : string
}.
End Build.

Module Job.
Record t := mk {
  Name : string;
  Type_ : string;
  Bucket : string;
  Repo : string;
  StoragePath : string;
  PullID : Z;
  Builds : list Build.t
}.
End Job.

(** Started holds the started.json values of the build. *)
Record Started := mkStarted {
  Started_Timestamp : Z;
  Started_RepoVersion : string;
  Started_Node : string;
  Started_Pull : string;
  Started_Repos : list (string * string)
}.

(** Finished holds the finished.json values of the build. *)
Record Finished := mkFinished {
  Finished_Timestamp : Z;
  Finished_Passed : bool;
  Finished_JobVersion : string;
  Finished_Metadata : list (string * json)
}.

Definition zero_Started : Started := mkStarted 0 "" "" "" [].
Definition zero_Finished : Finished := mkFinished 0 false "" [].

(** [json.Unmarshal(contents, &v)] for the decode targets of the package:
    the value left in [v] and the error. *)
Class Unmarshaler (T : Type) := json_Unmarshal : string -> T -> T * option error.

(** NewJob creates new job struct; pullID is only saved by Presubmit job
    for determining StoragePath. [fatalf] is the current value of the
    package variable [logFatalf]. *)
Definition NewJob (fatalf : fatal_hook) (jobName jobType repoName : string)
    (pullID : Z) : outcome Job.t :=
  let job := Job.mk jobName jobType BucketName "" "" 0 [] in
  if (jobType =? PeriodicJob)%string || (jobType =? PostsubmitJob)%string then
    Returns (Job.mk jobName jobType BucketName "" (path.Join ["logs"; jobName])
               0 [])
  else if (jobType =? PresubmitJob)%string then
    Returns (Job.mk jobName jobType BucketName ""
               (path.Join ["pr-logs"; "pull"; OrgName ++ "_" ++ repoName;
                           strconv.Itoa pullID; jobName])
               pullID [])
  else if (jobType =? BatchJob)%string then
    Returns (Job.mk jobName jobType BucketName ""
               (path.Join ["pr-logs"; "pull"; "batch"; jobName]) 0 [])
  else
    match fatalf "unknown job spec type: %v" jobType with
    | HookExits code => Exits code
    | HookReturns => Returns job
    end.

(** NewBuild creates new build struct *)
Definition NewBuild (jobName storagePath : string) (buildID : Z) : Build.t :=
  Build.mk jobName storagePath buildID BucketName.

(** NewBuild gets build struct based on job info *)
Definition Job_NewBuild (j : Job.t) (buildID : Z) : Build.t :=
  Build.mk (Job.Name j)
           (path.Join [Job.StoragePath j; strconv.Itoa buildID])
           buildID BucketName.

(** GetLatestBuildNumber gets the latest build number for job *)
Definition GetLatestBuildNumber (g : GCS) (j : Job.t) : Z * option error :=
  let logFilePath := path.Join [Job.StoragePath j; Latest] in
  let '(contents, err) := Read g BucketName logFilePath in
  match err with
  | Some e => (0, Some e)
  | None =>
      let '(latestBuild, err) :=
        wrap_num (strconv.Atoi (strings.TrimSuffix contents (String "010" ""))) in
      match err with
      | Some e => (0, Some e)
      | None => (latestBuild, None)
      end
  end.

(** getBuildIDFromBuildPath digests gcs build path and return last portion
    of path *)
Definition getBuildIDFromBuildPath (buildPath : string) : Z * option error :=
  let '(_, buildIDStr) := path.Split (strings.TrimRight buildPath " /") in
  wrap_num (strconv.Atoi buildIDStr).

(** GetBuilds gets all builds from this job on gcs *)
Definition GetBuilds (g : GCS) (j : Job.t) : list Build.t :=
  let gcsBuildPaths := ListDirectChildren g (Job.Bucket j) (Job.StoragePath j) in
  fold_left
    (fun builds gcsBuildPath =>
       let '(buildID, err) := getBuildIDFromBuildPath gcsBuildPath in
       match err with
       | Some _ => builds
       | None => (builds ++ [Job_NewBuild j buildID])%list
       end)
    gcsBuildPaths [].

(** IsStarted check if build has started by looking at "started.json" file *)
Definition IsStarted (g : GCS) (b : Build.t) : bool :=
  Exist g BucketName (path.Join [Build.StoragePath b; StartedJSON]).

(** IsFinished check if build has finished by looking at "finished.json"
    file *)
Definition IsFinished (g : GCS) (b : Build.t) : bool :=
  Exist g BucketName (path.Join [Build.StoragePath b; FinishedJSON]).

(** GetFinishedBuilds gets all builds that have finished, by looking at
    existence of "finished.json" file *)
Definition GetFinishedBuilds (g : GCS) (j : Job.t) : list Build.t :=
  fold_left
    (fun finishedBuilds build =>
       if Bool.eqb true (IsFinished g build)
       then (finishedBuilds ++ [build])%list
       else finishedBuilds)
    (GetBuilds g j) [].

(** GetArtifactsDir gets gcs path for artifacts of current build *)
Definition GetArtifactsDir (b : Build.t) : string :=
  path.Join [Build.StoragePath b; ArtifactsDir].

(** GetBuildLogPath gets "build-log.txt" path for current build *)
Definition GetBuildLogPath (b : Build.t) : string :=
  path.Join [Build.StoragePath b; BuildLog].

(** [s[:hi]] for a slice [s] whose capacity is its length. *)
Definition slice_to {A : Type} (s : list A) (hi : Z) : outcome (list A) :=
  if (hi <? 0) || (Z.of_nat (List.length s) <? hi)
  then Panics "slice bounds out of range"
  else Returns (firstn (Z.to_nat hi) s).

(** [Close] of a [storage.Reader], called through a pointer that may be
    nil: the receiver is dereferenced. *)
Definition Reader_Close (f : option Reader) : outcome (option error) :=
  match f with
  | None => Panics "invalid memory address or nil pointer dereference"
  | Some _ => Returns None
  end.

(** The loop [for scanner.Scan() { ... }] of [ParseLog] over the lines that
    the scanner yields. *)
Definition scan_lines (checkLog : list string -> option string)
    (lines : list string) : list string :=
  fold_left
    (fun logs text =>
       match checkLog (strings.Fields text) with
       | Some s => (logs ++ [s])%list
       | None => logs
       end)
    lines [].

(** ParseLog parses the build log and returns the lines where the checkLog
    func does not return an empty slice. The result comes with the calls
    made to the storage. [defer f.Close()] is registered before the error of
    [NewReader] is looked at, so the call runs when the body is left, on
    whatever [f] is. *)
Definition ParseLog (g : GCS) (b : Build.t)
    (checkLog : list string -> option string)
    : outcome (list string * option error) * list event :=
  let logs : list string := [] in
  let object := GetBuildLogPath b in
  let '(f, err) := NewReader g (Build.Bucket b) object in
  let opened := [EvOpen (Build.Bucket b) object] in
  let body : outcome (list string * option error) :=
    match err with
    | Some e => Returns (logs, Some e)
    | None =>
        match f with
        | None => Panics "invalid memory address or nil pointer dereference"
        | Some r => Returns (scan_lines checkLog (reader_lines r), None)
        end
    end in
  match Reader_Close f with
  | Returns _ => (body, (opened ++ [EvClose (Build.Bucket b) object])%list)
  | Panics msg => (Panics msg, opened)
  | Exits code => (Exits code, opened)
  end.

Section Decoding.

Context {unmarshalStarted : Unmarshaler Started}.
Context {unmarshalFinished : Unmarshaler Finished}.

(** unmarshalJSONFile reads a file from gcs, parses it and writes to v.
    The result comes with the call made to the storage. *)
Definition unmarshalJSONFile {T : Type} {U : Unmarshaler T} (g : GCS)
    (storagePath : string) (v : T) : (T * option error) * list event :=
  let '(contents, err) := Read g BucketName storagePath in
  let calls := [EvRead BucketName storagePath] in
  match err with
  | Some e => ((v, Some e), calls)
  | None =>
      let '(v', err) := json_Unmarshal contents v in
      match err with
      | Some e => ((v', Some e), calls)
      | None => ((v', None), calls)
      end
  end.

(** GetStartedTime gets started timestamp of a build, returning -1 if the
    build didn't start or if it failed to get the timestamp *)
Definition GetStartedTime (g : GCS) (b : Build.t)
    : (Z * option error) * list event :=
  let '((started, err), calls) :=
    unmarshalJSONFile g (path.Join [Build.StoragePath b; FinishedJSON])
                      zero_Started in
  match err with
  | Some e => ((-1, Some e), calls)
  | None => ((Started_Timestamp started, None), calls)
  end.

(** GetFinishedTime gets finished timestamp of a build, returning -1 if
    the build didn't finish or if it failed to get the timestamp *)
Definition GetFinishedTime (g : GCS) (b : Build.t)
    : (Z * option error) * list event :=
  let '((finished, err), calls) :=
    unmarshalJSONFile g (path.Join [Build.StoragePath b; FinishedJSON])
                      zero_Finished in
  match err with
  | Some e => ((-1, Some e), calls)
  | None => ((Finished_Timestamp finished, None), calls)
  end.

(** The function literal given to [sort.Slice] in [GetLatestBuilds], on
    the elements [builds[i]] and [builds[j]]. *)
Definition startedLess (g : GCS) (bi bj : Build.t) : bool :=
  let '(startedTime1, err1) := fst (GetStartedTime g bi) in
  match err1 with
  | Some _ => false
  | None =>
      let '(startedTime2, err2) := fst (GetStartedTime g bj) in
      match err2 with
      | Some _ => true
      | None => startedTime2 <? startedTime1
      end
  end.

(** [sort.Slice], whose algorithm differs between Go releases, is a
    parameter of [GetLatestBuilds]; its documented contract is
    [sort_contract] below. *)
Definition sorter := forall A : Type, (A -> A -> bool) -> list A -> list A.

(** GetLatestBuilds get latest builds from gcs *)
Definition GetLatestBuilds (sort_Slice : sorter) (g : GCS) (j : Job.t)
    (count : Z) : outcome (list Build.t) :=
  let builds := sort_Slice _ (startedLess g) (GetFinishedBuilds g j) in
  if Z.of_nat (List.length builds) <? count then Returns builds
  else slice_to builds count.

End Decoding.

(** ** Path cleaning, element by element

    The documented effect of [path.Clean] on the elements of a path: empty
    and [.] elements are dropped, a [..] element removes the name before it
    or, at the head of an unrooted path, is kept. [Clean] is proved below to
    compute it. *)

Definition slash_free (s : bytes) : Prop := Forall (fun c => is_slash c = false) s.

Definition is_dot_elem (s : bytes) : bool :=
  match s with
  | [c] => is_dot c
  | _ => false
  end.

Definition is_dotdot_elem (s : bytes) : bool :=
  match s with
  | [c1; c2] => is_dot c1 && is_dot c2
  | _ => false
  end.

(** The elements of a path: the runs of bytes between its slashes. *)
Fixpoint components (p : bytes) : list bytes :=
  match p with
  | [] => [[]]
  | c :: p' =>
      if is_slash c then [] :: components p'
      else match components p' with
           | x :: xs => (c :: x) :: xs
           | [] => [[c]]
           end
  end.

Fixpoint join_slash (cs : list bytes) : bytes :=
  match cs with
  | [] => []
  | c :: cs' =>
      match cs' with
      | [] => c
      | _ => (c ++ "/"%char :: join_slash cs')%list
      end
  end.

(** A cleaned path under construction: [ups] leading [..] elements, then
    the names, the last one first. *)
Record stack := mkStack {
  ups : nat;
  names : list bytes
}.

Definition dotdot_elem : bytes := ["."%char; "."%char].

Definition seg_step (rooted : bool) (s : stack) (c : bytes) : stack :=
  match c with
  | [] => s
  | _ =>
      if is_dot_elem c then s
      else if is_dotdot_elem c then
        match names s with
        | _ :: below => mkStack (ups s) below
        | [] => if rooted then s else mkStack (S (ups s)) []
        end
      else mkStack (ups s) (c :: names s)
  end.

Definition stack_elems (s : stack) : list bytes :=
  (repeat dotdot_elem (ups s) ++ rev (names s))%list.

Definition render (rooted : bool) (s : stack) : bytes :=
  if rooted then "/"%char :: join_slash (stack_elems s)
  else join_slash (stack_elems s).

Definition clean_stack (p : bytes) : bool * stack :=
  match p with
  | [] => (false, mkStack 0 [])
  | c :: p' =>
      let rooted := is_slash c in
      (rooted,
       fold_left (seg_step rooted) (components (if rooted then p' else p))
                 (mkStack 0 []))
  end.

Definition dot_if_empty (o : bytes) : bytes :=
  match o with
  | [] => ["."%char]
  | _ => o
  end.

Definition clean_spec (p : bytes) : bytes :=
  let '(rooted, s) := clean_stack p in dot_if_empty (render rooted s).

(** A name of a cleaned path: not empty, without slash, neither [.] nor
    [..]. *)
Definition is_name (s : bytes) : bool :=
  negb (Nat.eqb (List.length s) 0) && forallb (fun c => negb (is_slash c)) s
  && negb (is_dot_elem s) && negb (is_dotdot_elem s).

(** A relative path made of names only: [Clean] leaves it as it is. *)
Definition is_plain_path (p : string) : bool :=
  forallb is_name (components (to_bytes p)).

(** How the state of the loop of [Clean] represents a [stack]: the output
    is the rendering of the stack, [dotdot] is where its leading [..]
    elements (or the root) end. *)
Definition dd_index (rooted : bool) (s : stack) : nat :=
  if rooted then 1%nat
  else List.length (join_slash (repeat dotdot_elem (ups s))).

Definition real_name (c : bytes) : Prop := c <> [] /\ slash_free c.

Record represents (rooted : bool) (st : path.cleaner) (s : stack) : Prop := {
  rep_out : path.out st = rev (render rooted s);
  rep_dotdot : path.dotdot st = dd_index rooted s;
  rep_names : Forall real_name (names s);
  rep_rooted : rooted = true -> ups s = 0%nat
}.

(** The stacks that cleaning builds: their names are names, and a rooted
    path has no leading [..]. *)
Definition wf_stack (rooted : bool) (s : stack) : Prop :=
  Forall (fun n => is_name n = true) (names s) /\
  (rooted = true -> ups s = 0%nat).

(** What [Clean] writes before a name appended to the path [p]. *)
Definition dir_prefix (p : bytes) : bytes :=
  let '(rooted, s) := clean_stack p in
  match stack_elems s with
  | [] => if rooted then ["/"%char] else []
  | _ => (render rooted s ++ ["/"%char])%list
  end.

(** A path that does not start at the root and is not empty. *)
Definition relative (p : bytes) : Prop :=
  match p with
  | c :: _ => is_slash c = false
  | [] => False
  end.

(** What [path.Join] writes before a name joined to [dir]. *)
Definition join_prefix (dir : string) : bytes :=
  match to_bytes dir with
  | [] => []
  | d => dir_prefix d
  end.

(** ** Reading integers, build identifiers *)

(** An optionally signed decimal numeral: one sign at most, then one digit
    at least. *)
Definition numeral_digits (s : bytes) : bytes :=
  match s with
  | c :: s' => if Ascii.eqb c "+" || Ascii.eqb c "-" then s' else s
  | [] => []
  end.

Definition is_numeral (s : bytes) : bool :=
  negb (Nat.eqb (List.length (numeral_digits s)) 0)
  && forallb strconv.is_digit (numeral_digits s).

Definition magnitude (ds : bytes) : Z :=
  fold_left (fun n c => n * 10 + strconv.digit_val c) ds 0.

Definition numeral_value (s : bytes) : Z :=
  match s with
  | c :: _ => if Ascii.eqb c "-" then - magnitude (numeral_digits s)
              else magnitude (numeral_digits s)
  | [] => 0
  end.

(** The numerals that denote an [int]. *)
Definition is_int_numeral (s : string) : bool :=
  is_numeral (to_bytes s)
  && (strconv.minInt64 <=? numeral_value (to_bytes s))
  && (numeral_value (to_bytes s) <=? strconv.maxInt64).

(** The last element of a listed path, its trailing blanks and slashes
    left out. *)
Definition last_element (buildPath : string) : string :=
  snd (path.Split (strings.TrimRight buildPath " /")).

(** The build identifier that a listed path denotes, if any. *)
Definition build_id_of (buildPath : string) : option Z :=
  let s := last_element buildPath in
  if is_int_numeral s then Some (numeral_value (to_bytes s)) else None.

(** [s] ends with [suffix]. *)
Definition has_suffix (s suffix : string) : Prop :=
  exists pre : string, s = (pre ++ suffix)%string.

(** [s] is the decimal rendering of the natural number [n]: digits only,
    no leading zero, of value [n]. *)
Definition decimal_of (s : string) (n : Z) : Prop :=
  to_bytes s <> [] /\
  forallb strconv.is_digit (to_bytes s) = true /\
  (hd "0"%char (to_bytes s) = "0"%char -> n = 0) /\
  magnitude (to_bytes s) = n.

(** The elements written one after the other, a slash between them. *)
Fixpoint join_strings (elem : list string) : string :=
  match elem with
  | [] => ""
  | e :: elem' =>
      match elem' with
      | [] => e
      | _ => (e ++ "/" ++ join_strings elem')%string
      end
  end.

(** ** Sorting *)

(** The orderings that [sort.Slice] asks for: [less] is irreflexive and
    transitive, and so is its negation. *)
Definition strict_weak_order {A : Type} (less : A -> A -> bool) : Prop :=
  (forall a, less a a = false) /\
  (forall a b c, less a b = true -> less b c = true -> less a c = true) /\
  (forall a b c, less a b = false -> less b c = false -> less a c = false).

(** A slice is sorted when no element is less than one before it. *)
Definition sorted_by {A : Type} (less : A -> A -> bool) (l : list A) : Prop :=
  StronglySorted (fun a b => less b a = false) l.

(** The contract of [sort.Slice]: the elements are permuted, and sorted
    when [less] is an ordering. *)
Record sort_contract (sort_Slice : sorter) : Prop := {
  sort_permutes :
    forall (A : Type) (less : A -> A -> bool) (l : list A),
      Permutation (sort_Slice A less l) l;
  sort_sorts :
    forall (A : Type) (less : A -> A -> bool) (l : list A),
      strict_weak_order less -> sorted_by less (sort_Slice A less l)
}.

(** The insertion sort that [sort.Slice] runs on short slices: each
    element moves towards the front while it is less than the element
    before it. The sorted prefix is kept with its last element first. *)
Fixpoint insert_back {A : Type} (less : A -> A -> bool) (x : A)
    (prefix : list A) : list A :=
  match prefix with
  | [] => [x]
  | y :: prefix' =>
      if less x y then y :: insert_back less x prefix' else x :: prefix
  end.

Definition insertionSort : sorter :=
  fun A less l => rev (fold_left (fun prefix x => insert_back less x prefix) l []).

(** The started time of a build as [GetLatestBuilds] sees it: [None] when
    [GetStartedTime] returns an error. *)
Definition started_time {U : Unmarshaler Started} (g : GCS) (b : Build.t)
    : option Z :=
  match fst (GetStartedTime g b) with
  | (t, None) => Some t
  | (_, Some _) => None
  end.

(** The timestamp that an accessor returns, from what the read of the
    object gave. *)
Definition decoded_time {T : Type} {U : Unmarshaler T} (field : T -> Z)
    (zero : T) (read : string * option error) : Z * option error :=
  match read with
  | (_, Some e) => (-1, Some e)
  | (contents, None) =>
      match json_Unmarshal contents zero with
      | (_, Some e) => (-1, Some e)
      | (v, None) => (field v, None)
      end
  end.

(** The fragments that [checkLog] keeps, line after line. *)
Definition kept_fragments (checkLog : list string -> option string)
    (lines : list string) : list string :=
  flat_map (fun text => match checkLog (strings.Fields text) with
                        | Some s => [s]
                        | None => []
                        end) lines.

(** ** Storage and decoders for the examples *)

(** A decoder for the examples: the object holds the timestamp alone, in
    decimal. *)
Definition timestamp_of (contents : string) : Z * option error :=
  match strconv.Atoi contents with
  | (n, None) => (n, None)
  | (_, Some _) => (0, Some (DecodeError "invalid character"))
  end.

Definition example_Started : Unmarshaler Started :=
  fun contents v =>
    match timestamp_of contents with
    | (n, None) => (mkStarted n (Started_RepoVersion v) (Started_Node v)
                              (Started_Pull v) (Started_Repos v), None)
    | (_, Some e) => (v, Some e)
    end.

Definition example_Finished : Unmarshaler Finished :=
  fun contents v =>
    match timestamp_of contents with
    | (n, None) => (mkFinished n (Finished_Passed v) (Finished_JobVersion v)
                               (Finished_Metadata v), None)
    | (_, Some e) => (v, Some e)
    end.

(** A bucket given by the list of its objects: name and contents. *)
Definition lookup_object (objects : list (string * string)) (name : string)
    : option string :=
  option_map snd (find (fun o => (fst o =? name)%string) objects).

Definition example_gcs (objects : list (string * string))
    (children : list string) (log : option Reader * option error) : GCS :=
  mkGCS
    (fun _ name => match lookup_object objects name with
                   | Some _ => true
                   | None => false
                   end)
    (fun _ name => match lookup_object objects name with
                   | Some c => (c, None)
                   | None => (""%string, Some (StorageError "object doesn't exist"))
                   end)
    (fun _ _ => children)
    (fun _ _ => log).

Definition no_object : option Reader * option error :=
  (None, Some (StorageError "object doesn't exist")).

(** The job [logs/ci] with builds 1, 2 and 3 finished at 50, an unreadable
    time and 100, and a build 4 that has not finished. *)
Definition ci_job : Job.t :=
  Job.mk "ci" PeriodicJob BucketName "" "logs/ci" 0 [].

Definition ci_gcs : GCS :=
  example_gcs
    [("logs/ci/1/finished.json", "50"); ("logs/ci/2/finished.json", "{}");
     ("logs/ci/3/finished.json", "100"); ("logs/ci/4/started.json", "120")]%string
    ["logs/ci/1/"; "logs/ci/2/"; "logs/ci/latest-build.txt"; "logs/ci/3/";
     "logs/ci/4/"]%string
    no_object.

Definition ci_build (id : Z) : Build.t := Job_NewBuild ci_job id.

(** The extractor of the example of the specification: the line, when its
    first word is ERROR. *)
Definition keep_errors (words : list string) : option string :=
  match words with
  | w :: _ => if (w =? "ERROR")%string
              then Some (String.concat " " words) else None
  | [] => None
  end.

Definition example_log : Reader :=
  mkReader ["build ok"; "ERROR disk full"; "build ok"]%string None.

Definition broken_log : Reader :=
  mkReader ["ERROR disk full"; "build"]%string
           (Some (StorageError "connection reset")).

(** The job types that [NewJob] knows. *)
Definition valid_job_type (jobType : string) : Prop :=
  jobType = PresubmitJob \/ jobType = PostsubmitJob \/
  jobType = PeriodicJob \/ jobType = BatchJob.

(** A bucket whose listing holds the children of the example of the
    specification. *)
Definition listed_gcs : GCS :=
  example_gcs [] ["3"; "abc"; "07"; "10"; "-1"]%string no_object.

(** ** Definitions for the properties of the whole package *)

(** Bytes that [getBuildIDFromBuildPath] trims at the end of a listed
    path: blanks and slashes only. *)
Definition is_padding (pad : string) : bool :=
  forallb (strings.in_cutset (to_bytes " /")) (to_bytes pad).

(** Empty, or ending with a slash: what comes before the last element of a
    path. *)
Definition dir_like (pre : bytes) : Prop :=
  pre = [] \/ exists q, pre = (q ++ ["/"%char])%list.

(** The line feed that ends the contents of [latest-build.txt]. *)
Definition newline : string := String "010" "".

(** A bucket that holds the latest build number of the example job. *)
Definition latest_gcs : GCS :=
  example_gcs [("logs/ci/latest-build.txt", "42" ++ newline)]%string [] no_object.

(** A bucket whose listing is the storage paths of the builds found in
    [ci_gcs]. *)
Definition relisted_gcs : GCS :=
  example_gcs [] (map Build.StoragePath (GetBuilds ci_gcs ci_job)) no_object.

(** A bucket whose reader comes with an error. *)
Definition failing_gcs : GCS :=
  example_gcs [] [] (Some example_log, Some (StorageError "permission denied")).

(** * Properties *)

Local Open Scope list_scope.

(** ** The library functions on the examples of their documentation *)

(** The table of the tests of [path.Clean]. *)
Example Clean_examples :
  map path.Clean
    ["abc"; "abc/def"; "a/b/c"; "."; ".."; "../.."; "../../abc"; "/abc"; "/";
     ""; "abc/"; "abc/def/"; "a/b/c/"; "./"; "../"; "../../"; "/abc/";
     "abc//def//ghi"; "//abc"; "///abc"; "//abc//"; "abc//";
     "abc/./def"; "/./abc/def"; "abc/.";
     "abc/def/ghi/../jkl"; "abc/def/../ghi/../jkl"; "abc/def/.."; "abc/def/../..";
     "/abc/def/../.."; "abc/def/../../.."; "/abc/def/../../..";
     "abc/def/../../../ghi/jkl/../../../mno";
     "abc/./../def"; "abc//./../def"; "abc/../../././../def"]%string
  = ["abc"; "abc/def"; "a/b/c"; "."; ".."; "../.."; "../../abc"; "/abc"; "/";
     "."; "abc"; "abc/def"; "a/b/c"; "."; ".."; "../.."; "/abc";
     "abc/def/ghi"; "/abc"; "/abc"; "/abc"; "abc";
     "abc/def"; "/abc/def"; "abc";
     "abc/def/jkl"; "abc/jkl"; "abc"; ".";
     "/"; ".."; "/";
     "../../mno";
     "def"; "def"; "../../def"]%string.
Proof. reflexivity. Qed.

Example Join_examples :
  map path.Join [["a"; "b"; "c"]; ["a"; "b/c"]; ["a/b"; "c"]; ["a/b"; "../../../xyz"];
                 [""; ""]; ["a"; ""]; [""; "a"]; ["logs"; ""]]%string
  = ["a/b/c"; "a/b/c"; "a/b/c"; "../xyz"; ""; "a"; "a"; "logs"]%string.
Proof. reflexivity. Qed.

Example Split_examples :
  map path.Split ["static/myfile.css"; "myfile.css"; ""; "a/b/"]%string
  = [("static/", "myfile.css"); ("", "myfile.css"); ("", ""); ("a/b/", "")]%string.
Proof. reflexivity. Qed.

Example Itoa_examples :
  map strconv.Itoa [0; 7; 10; 4321; -1; -120; strconv.maxInt64; strconv.minInt64]
  = ["0"; "7"; "10"; "4321"; "-1"; "-120"; "9223372036854775807";
     "-9223372036854775808"]%string.
Proof. reflexivity. Qed.

Example Atoi_examples :
  map strconv.Atoi ["10"; "07"; "-1"; "+5"; "abc"; ""; "-"; "1_0"; " 1";
                    "9223372036854775808"; "-9223372036854775808"]%string
  = [(10, None); (7, None); (-1, None); (5, None);
     (0, Some strconv.ErrSyntax); (0, Some strconv.ErrSyntax);
     (0, Some strconv.ErrSyntax); (0, Some strconv.ErrSyntax);
     (0, Some strconv.ErrSyntax);
     (strconv.maxInt64, Some strconv.ErrRange); (strconv.minInt64, None)].
Proof. reflexivity. Qed.

Example Fields_examples :
  strings.Fields "  foo bar  baz   " = ["foo"; "bar"; "baz"]%string /\
  strings.Fields "ERROR disk full" = ["ERROR"; "disk"; "full"]%string /\
  strings.Fields "" = [] /\
  strings.TrimRight "logs/ci/12/ " " /" = "logs/ci/12"%string /\
  strings.TrimSuffix (String "1" (String "2" (String "010" ""))) (String "010" "")
  = "12"%string.
Proof. repeat split. Qed.

(** The paths of the objects of the build 3 of the example job. *)
Example build_paths_example :
  GetBuildLogPath (ci_build 3) = "logs/ci/3/build-log.txt"%string /\
  GetArtifactsDir (ci_build 3) = "logs/ci/3/artifacts"%string /\
  IsFinished ci_gcs (ci_build 3) = true /\
  IsStarted ci_gcs (ci_build 3) = false /\
  IsStarted ci_gcs (ci_build 4) = true.
Proof. repeat split. Qed.

(** ** Bytes and strings *)

Lemma of_to_bytes (s : string) : of_bytes (to_bytes s) = s.
Proof. apply string_of_list_ascii_of_string. Qed.

Lemma to_of_bytes (b : bytes) : to_bytes (of_bytes b) = b.
Proof. apply list_ascii_of_string_of_list_ascii. Qed.

Lemma to_bytes_app (s1 s2 : string) :
  to_bytes (s1 ++ s2)%string = to_bytes s1 ++ to_bytes s2.
Proof.
  induction s1 as [|c s1 IH]; simpl; [reflexivity|].
  unfold to_bytes in *. simpl. now rewrite IH.
Qed.

Lemma of_bytes_app (b1 b2 : bytes) :
  of_bytes (b1 ++ b2) = (of_bytes b1 ++ of_bytes b2)%string.
Proof.
  induction b1 as [|c b1 IH]; simpl; [reflexivity|].
  unfold of_bytes in *. simpl. now rewrite IH.
Qed.

Lemma to_bytes_inj (s1 s2 : string) : to_bytes s1 = to_bytes s2 -> s1 = s2.
Proof.
  intros H. rewrite <- (of_to_bytes s1), <- (of_to_bytes s2). now rewrite H.
Qed.

Lemma is_slash_true (c : ascii) : is_slash c = true <-> c = "/"%char.
Proof. unfold is_slash. apply Ascii.eqb_eq. Qed.

Lemma is_dot_true (c : ascii) : is_dot c = true <-> c = "."%char.
Proof. unfold is_dot. apply Ascii.eqb_eq. Qed.

(** ** Elements of a path *)

Lemma components_not_nil (p : bytes) : components p <> [].
Proof.
  destruct p as [|c p]; simpl; [discriminate|].
  destruct (is_slash c); [discriminate|].
  destruct (components p); discriminate.
Qed.

Lemma components_slash_free (p : bytes) : Forall slash_free (components p).
Proof.
  induction p as [|c p IH]; simpl.
  - repeat constructor.
  - destruct (is_slash c) eqn:E.
    + constructor; [constructor | exact IH].
    + destruct (components p) as [|x xs].
      * repeat constructor. exact E.
      * inversion IH; subst. constructor; [constructor; assumption | assumption].
Qed.

Lemma join_components (p : bytes) : join_slash (components p) = p.
Proof.
  induction p as [|c p IH]; simpl; [reflexivity|].
  destruct (is_slash c) eqn:E.
  - apply is_slash_true in E; subst c.
    pose proof (components_not_nil p) as Hn.
    destruct (components p) as [|x xs]; [congruence|].
    simpl in *. now rewrite IH.
  - destruct (components p) as [|x xs] eqn:Ec.
    + now destruct (components_not_nil p).
    + simpl in *. destruct xs; simpl in *; now rewrite <- IH.
Qed.

Lemma components_app_slash (a b : bytes) :
  components (a ++ "/"%char :: b) = (components a ++ components b).
Proof.
  induction a as [|c a IH]; simpl; [reflexivity|].
  destruct (is_slash c); [now rewrite IH|].
  rewrite IH.
  pose proof (components_not_nil a) as Hn.
  destruct (components a) as [|x xs]; [congruence | reflexivity].
Qed.

Lemma components_slash_free_one (c : bytes) :
  slash_free c -> components c = [c].
Proof.
  induction 1 as [|x c Hx Hc IH]; simpl; [reflexivity|].
  now rewrite Hx, IH.
Qed.

Lemma components_join (cs : list bytes) :
  cs <> [] -> Forall slash_free cs -> components (join_slash cs) = cs.
Proof.
  induction cs as [|c cs IH]; intros Hn Hf; [congruence|].
  inversion Hf; subst. destruct cs as [|c' cs].
  - simpl. now apply components_slash_free_one.
  - change (join_slash (c :: c' :: cs))
      with (c ++ "/"%char :: join_slash (c' :: cs)).
    rewrite components_app_slash, components_slash_free_one by assumption.
    rewrite IH by (assumption || discriminate). reflexivity.
Qed.

Lemma join_slash_snoc (cs : list bytes) (c : bytes) :
  cs <> [] -> join_slash (cs ++ [c]) = (join_slash cs ++ "/"%char :: c).
Proof.
  induction cs as [|x cs IH]; intros Hn; [congruence|].
  destruct cs as [|y cs]; [reflexivity|].
  change (join_slash ((x :: y :: cs) ++ [c]))
    with (x ++ "/"%char :: join_slash ((y :: cs) ++ [c])).
  rewrite IH by discriminate.
  change (join_slash (x :: y :: cs))
    with (x ++ "/"%char :: join_slash (y :: cs)).
  now rewrite <- app_assoc.
Qed.

(** ** The loop of [Clean] computes the element-wise cleaning *)

Lemma element_ends_app (c tail : bytes) :
  slash_free c -> path.element_ends tail = true ->
  path.element_ends (c ++ tail) = match c with [] => true | _ => false end.
Proof.
  intros Hc Ht. destruct c as [|x c]; simpl; [exact Ht|].
  now inversion Hc.
Qed.

Lemma copy_element_app (c tail o : bytes) :
  slash_free c -> path.element_ends tail = true ->
  path.copy_element (c ++ tail) o = (tail, rev c ++ o).
Proof.
  intros Hc Ht. revert o.
  induction Hc as [|x c Hx Hc IH]; intros o; simpl.
  - destruct tail as [|t tail]; [reflexivity|].
    simpl in Ht. simpl. now rewrite Ht.
  - rewrite Hx, IH, <- app_assoc. reflexivity.
Qed.

Lemma backtrack_loop_stop (m : bytes) (c : ascii) (o : bytes) (dd : nat) :
  slash_free (c :: m) ->
  (List.length o = dd \/
   exists o', o = "/"%char :: o' /\ (dd <= List.length o')%nat) ->
  path.backtrack_loop c (m ++ o) dd =
    match o with
    | x :: o' => if (dd <? List.length o)%nat then o' else o
    | [] => o
    end.
Proof.
  revert c. induction m as [|c1 m IH]; intros c Hc Ho.
  - inversion Hc as [|? ? Hs _]; subst. destruct o as [|x o']; [reflexivity|].
    simpl app. cbn [path.backtrack_loop].
    rewrite Hs. simpl negb. rewrite andb_true_r.
    destruct Ho as [Hl | (o'' & E & Hl)].
    + replace (dd <? List.length (x :: o'))%nat with false
        by (symmetry; apply Nat.ltb_ge; lia). reflexivity.
    + inversion E; subst x o''.
      replace (dd <? List.length ("/"%char :: o'))%nat with true
        by (symmetry; apply Nat.ltb_lt; simpl; lia).
      destruct o' as [|y o2]; [reflexivity|]. simpl. now rewrite andb_false_r.
  - inversion Hc as [|? ? Hs Hm]; subst.
    change (path.backtrack_loop c ((c1 :: m) ++ o) dd)
      with (if (dd <? List.length (c1 :: m ++ o))%nat && negb (is_slash c)
            then path.backtrack_loop c1 (m ++ o) dd else c1 :: m ++ o).
    rewrite Hs. simpl negb. rewrite andb_true_r.
    replace (dd <? List.length (c1 :: m ++ o))%nat with true.
    + now apply IH.
    + symmetry. apply Nat.ltb_lt. simpl. rewrite length_app.
      destruct Ho as [Hl | (o' & E & Hl)]; [lia | subst o; simpl; lia].
Qed.

Lemma backtrack_name (n o : bytes) (dd : nat) :
  real_name n ->
  (List.length o = dd \/
   exists o', o = "/"%char :: o' /\ (dd <= List.length o')%nat) ->
  path.backtrack (rev n ++ o) dd =
    match o with
    | x :: o' => if (dd <? List.length o)%nat then o' else o
    | [] => o
    end.
Proof.
  intros [Hn Hs] Ho.
  assert (Hr : slash_free (rev n)) by (apply Forall_rev; exact Hs).
  destruct (rev n) as [|c m] eqn:E.
  - apply (f_equal (@rev ascii)) in E. rewrite rev_involutive in E. now subst n.
  - simpl. now apply backtrack_loop_stop.
Qed.

Lemma join_slash_cons (c : bytes) (cs : list bytes) :
  cs <> [] -> join_slash (c :: cs) = c ++ "/"%char :: join_slash cs.
Proof. destruct cs; [congruence | reflexivity]. Qed.

Lemma join_slash_not_nil (cs : list bytes) :
  cs <> [] -> Forall (fun c => c <> []) cs -> join_slash cs <> [].
Proof.
  intros Hn Hf. destruct cs as [|c cs]; [congruence|].
  inversion Hf; subst. destruct cs as [|c' cs].
  - assumption.
  - rewrite join_slash_cons by discriminate. destruct c; discriminate.
Qed.

Lemma join_slash_app_longer (A B : list bytes) :
  B <> [] -> Forall (fun c => c <> []) B ->
  (List.length (join_slash A) < List.length (join_slash (A ++ B)))%nat.
Proof.
  intros Hn Hf. induction A as [|a A IH].
  - simpl app. pose proof (join_slash_not_nil B Hn Hf).
    destruct (join_slash B); [congruence | simpl; lia].
  - destruct A as [|a' A].
    + simpl app. rewrite (join_slash_cons a B) by assumption.
      simpl. rewrite length_app. simpl. lia.
    + simpl app in *.
      rewrite (join_slash_cons a (a' :: A)), (join_slash_cons a (a' :: A ++ B))
        by discriminate.
      rewrite !length_app. cbn [List.length]. lia.
Qed.

Lemma stack_elems_not_empty (s : stack) :
  Forall real_name (names s) -> Forall (fun c => c <> []) (stack_elems s).
Proof.
  intros H. unfold stack_elems. apply Forall_app. split.
  - apply Forall_forall. intros x Hx. apply repeat_spec in Hx. subst x. discriminate.
  - apply Forall_rev. eapply Forall_impl; [|exact H]. now intros a [Ha _].
Qed.

Lemma render_length_no_names (rooted : bool) (s : stack) :
  names s = [] -> (rooted = true -> ups s = 0%nat) ->
  List.length (render rooted s) = dd_index rooted s.
Proof.
  intros Hn Hr. unfold render, dd_index, stack_elems. rewrite Hn. simpl rev.
  rewrite app_nil_r. destruct rooted; [|reflexivity].
  now rewrite Hr.
Qed.

Lemma render_length_names (rooted : bool) (s : stack) :
  names s <> [] -> Forall real_name (names s) ->
  (rooted = true -> ups s = 0%nat) ->
  (dd_index rooted s < List.length (render rooted s))%nat.
Proof.
  intros Hn Hf Hr. unfold render, dd_index, stack_elems.
  assert (Hlt : (List.length (join_slash (repeat dotdot_elem (ups s))) <
                 List.length (join_slash (repeat dotdot_elem (ups s) ++ rev (names s))))%nat).
  { apply join_slash_app_longer.
    - intros E. apply (f_equal (@rev bytes)) in E. rewrite rev_involutive in E.
      now apply Hn.
    - apply Forall_rev. eapply Forall_impl; [|exact Hf]. now intros a [Ha _]. }
  destruct rooted; [|exact Hlt].
  rewrite Hr in * by reflexivity. simpl in *. lia.
Qed.

Lemma render_length_ge (rooted : bool) (s : stack) :
  Forall real_name (names s) -> (rooted = true -> ups s = 0%nat) ->
  (dd_index rooted s <= List.length (render rooted s))%nat.
Proof.
  intros Hf Hr. destruct (names s) as [|n below] eqn:E.
  - rewrite (render_length_no_names rooted s E Hr). apply Nat.le_refl.
  - apply Nat.lt_le_incl. apply render_length_names.
    + rewrite E. discriminate.
    + rewrite E. exact Hf.
    + exact Hr.
Qed.

(** Writing the name [c] after the rendering of [s]: the test of the Go
    code for the separating slash is the right one. *)
Lemma render_push (rooted : bool) (s : stack) (c : bytes) :
  Forall real_name (names s) -> (rooted = true -> ups s = 0%nat) ->
  let w := List.length (render rooted s) in
  rev (render rooted (mkStack (ups s) (c :: names s))) =
  rev c ++ (if (rooted && negb (w =? 1)%nat) || (negb rooted && negb (w =? 0)%nat)
            then "/"%char :: rev (render rooted s)
            else rev (render rooted s)).
Proof.
  intros Hf Hr w. subst w. unfold render, stack_elems. cbn [ups names rev].
  rewrite app_assoc. fold (stack_elems s).
  pose proof (stack_elems_not_empty s Hf) as Hne.
  destruct (stack_elems s) as [|e es] eqn:E.
  - cbn [app join_slash List.length]. destruct rooted; cbn.
    + reflexivity.
    + now rewrite app_nil_r.
  - rewrite join_slash_snoc by discriminate.
    pose proof (join_slash_not_nil (e :: es)) as Hj.
    specialize (Hj ltac:(discriminate) Hne).
    destruct (join_slash (e :: es)) as [|x xs] eqn:Ej; [congruence|].
    destruct rooted; cbn [List.length Nat.eqb negb andb orb rev app];
      rewrite ?rev_app_distr; cbn [rev app]; rewrite <- ?app_assoc;
      cbn [app]; rewrite <- ?app_assoc; reflexivity.
Qed.

Lemma clean_step_slash (rooted : bool) (st : path.cleaner) (r : bytes) :
  path.rest st = "/"%char :: r ->
  path.clean_step rooted st =
    Some (path.mkCleaner r (path.out st) (path.dotdot st)).
Proof. intros E. unfold path.clean_step. rewrite E. reflexivity. Qed.

(** The default case of the loop: a name is copied. *)
Lemma copy_represents (rooted : bool) (st : path.cleaner) (s : stack)
    (c tail : bytes) :
  represents rooted st s -> c <> [] -> slash_free c ->
  path.element_ends tail = true ->
  let w := List.length (path.out st) in
  let o1 := if (rooted && negb (w =? 1)%nat) || (negb rooted && negb (w =? 0)%nat)
            then "/"%char :: path.out st else path.out st in
  exists o2, path.copy_element (c ++ tail) o1 = (tail, o2) /\
    represents rooted (path.mkCleaner tail o2 (path.dotdot st))
               (mkStack (ups s) (c :: names s)).
Proof.
  intros [Ho Hd Hn Hr] Hc Hs Ht w o1.
  exists (rev c ++ o1). split; [now apply copy_element_app|].
  constructor; cbn [path.out path.dotdot ups names].
  - rewrite render_push by assumption. subst o1 w.
    rewrite Ho, length_rev. reflexivity.
  - rewrite Hd. reflexivity.
  - constructor; [split|]; assumption.
  - assumption.
Qed.

(** The [..] case of the loop. *)
Lemma dotdot_represents (rooted : bool) (st : path.cleaner) (s : stack)
    (tail : bytes) :
  represents rooted st s ->
  let st' :=
    if (path.dotdot st <? List.length (path.out st))%nat then
      path.mkCleaner tail (path.backtrack (path.out st) (path.dotdot st))
                     (path.dotdot st)
    else if negb rooted then
      let o1 := if (0 <? List.length (path.out st))%nat
                then "/"%char :: path.out st else path.out st in
      let o2 := "."%char :: "."%char :: o1 in
      path.mkCleaner tail o2 (List.length o2)
    else path.mkCleaner tail (path.out st) (path.dotdot st) in
  path.rest st' = tail /\ represents rooted st' (seg_step rooted s dotdot_elem).
Proof.
  intros [Ho Hd Hn Hr]. cbv zeta.
  unfold seg_step. cbn [dotdot_elem is_dot_elem is_dotdot_elem].
  change (is_dot "."%char) with true. cbn [andb].
  destruct s as [k nms]. cbn [names ups] in *.
  destruct nms as [|n below].
  - (* nothing to remove *)
    pose proof (render_length_no_names rooted (mkStack k []) eq_refl Hr) as Hl.
    rewrite <- Hd, <- (length_rev (render _ _)), <- Ho in Hl.
    replace (path.dotdot st <? List.length (path.out st))%nat with false
      by (symmetry; apply Nat.ltb_ge; lia).
    destruct rooted; cbn [negb].
    + split; [reflexivity|]. now constructor.
    + split; [reflexivity|].
      assert (Hrender : "."%char :: "."%char ::
                (if (0 <? List.length (path.out st))%nat
                 then "/"%char :: path.out st else path.out st)
              = rev (render false (mkStack (S k) []))).
      { rewrite Ho. unfold render, stack_elems. cbn [ups names rev].
        rewrite !app_nil_r, length_rev.
        change (repeat dotdot_elem (S k)) with (dotdot_elem :: repeat dotdot_elem k).
        rewrite repeat_cons. destruct k as [|k].
        - reflexivity.
        - rewrite join_slash_snoc by (cbn; discriminate).
          assert (Hj : join_slash (repeat dotdot_elem (S k)) <> []).
          { apply join_slash_not_nil; [cbn; discriminate|].
            apply Forall_forall. intros x Hx. apply repeat_spec in Hx.
            subst x. discriminate. }
          destruct (join_slash (repeat dotdot_elem (S k))) as [|x xs]; [congruence|].
          cbn [List.length Nat.ltb Nat.leb].
          rewrite rev_app_distr. reflexivity. }
      constructor; cbn [path.out path.dotdot names ups].
      * exact Hrender.
      * rewrite Hrender, length_rev. unfold render, dd_index, stack_elems.
        cbn [ups names rev]. now rewrite app_nil_r.
      * constructor.
      * discriminate.
  - (* the last name is removed *)
    inversion Hn as [|? ? Hn1 Hn2]; subst.
    pose proof (render_length_names rooted (mkStack k (n :: below))
                  ltac:(discriminate) Hn Hr) as Hl.
    rewrite <- (length_rev (render _ _)), <- Ho in Hl.
    change (dd_index rooted (mkStack k (n :: below)))
      with (dd_index rooted (mkStack k below)) in *.
    rewrite <- Hd in Hl.
    replace (path.dotdot st <? List.length (path.out st))%nat with true
      by (symmetry; apply Nat.ltb_lt; lia).
    split; [reflexivity|].
    pose proof (render_push rooted (mkStack k below) n Hn2 Hr) as Hp.
    cbv zeta in Hp. cbn [ups names] in Hp.
    pose proof (render_length_ge rooted (mkStack k below) Hn2 Hr) as Hge.
    constructor; cbn [path.out path.dotdot names ups]; try assumption.
    rewrite Ho, Hp, Hd.
    set (P := rev (render rooted (mkStack k below))) in *.
    assert (HP : List.length P = List.length (render rooted (mkStack k below)))
      by (subst P; apply length_rev).
    rewrite <- HP in *.
    destruct ((rooted && negb (List.length P =? 1)%nat)
              || (negb rooted && negb (List.length P =? 0)%nat)) eqn:Hc.
    + rewrite backtrack_name; [|assumption|].
      * replace (dd_index rooted (mkStack k below) <? List.length ("/"%char :: P))%nat
          with true by (symmetry; apply Nat.ltb_lt; cbn; lia). reflexivity.
      * right. exists P. split; [reflexivity | lia].
    + assert (Hw : List.length P = dd_index rooted (mkStack k below)).
      { destruct rooted; cbn [andb orb negb] in Hc.
        - rewrite orb_false_r in Hc. apply negb_false_iff, Nat.eqb_eq in Hc.
          now rewrite Hc.
        - apply negb_false_iff, Nat.eqb_eq in Hc. lia. }
      rewrite backtrack_name; [|assumption|left; assumption].
      destruct P as [|x P']; [reflexivity|].
      replace (dd_index rooted (mkStack k below) <? List.length (x :: P'))%nat
        with false by (symmetry; apply Nat.ltb_ge; lia). reflexivity.
Qed.

Lemma copy_element_rest (r o : bytes) :
  (List.length (fst (path.copy_element r o)) <= List.length r)%nat.
Proof.
  revert o. induction r as [|c r IH]; intros o; cbn [path.copy_element].
  - apply Nat.le_refl.
  - destruct (is_slash c); cbn [fst List.length]; [lia|].
    specialize (IH (c :: o)). lia.
Qed.

(** Every iteration of the loop consumes at least one byte of the path. *)
Lemma clean_step_consumes (rooted : bool) (st st' : path.cleaner) :
  path.clean_step rooted st = Some st' ->
  (List.length (path.rest st') < List.length (path.rest st))%nat.
Proof.
  unfold path.clean_step. destruct (path.rest st) as [|c r1] eqn:E;
    [discriminate|].
  destruct (is_slash c) eqn:Ec.
  { intros H. inversion H. cbn. lia. }
  destruct (is_dot c && path.element_ends r1).
  { intros H. inversion H. cbn. lia. }
  destruct (is_dot c && match r1 with
                        | c1 :: r2 => is_dot c1 && path.element_ends r2
                        | [] => false
                        end).
  { assert (Hr : (List.length (tl r1) <= List.length r1)%nat)
      by (destruct r1; cbn; lia).
    destruct (path.dotdot st <? List.length (path.out st))%nat;
      [|destruct (negb rooted)]; intros H; inversion H; cbn [path.rest List.length];
      lia. }
  cbn [path.copy_element]. rewrite Ec.
  match goal with
  | |- context [path.copy_element r1 ?o] =>
      pose proof (copy_element_rest r1 o) as Hc;
      destruct (path.copy_element r1 o) as [r' o2]
  end.
  intros H. inversion H. cbn [path.rest fst List.length] in *. lia.
Qed.

(** With the length of the path as fuel, the loop reads the whole path. *)
Lemma clean_loop_consumes (fuel : nat) (rooted : bool) (st : path.cleaner) :
  (List.length (path.rest st) <= fuel)%nat ->
  path.rest (path.clean_loop fuel rooted st) = [].
Proof.
  revert st. induction fuel as [|fuel IH]; intros st Hf; cbn [path.clean_loop].
  - destruct (path.rest st); [reflexivity | cbn in Hf; lia].
  - destruct (path.clean_step rooted st) as [st'|] eqn:E.
    + apply IH. pose proof (clean_step_consumes rooted st st' E). lia.
    + unfold path.clean_step in E. destruct (path.rest st) as [|c r1];
        [reflexivity|].
      exfalso. revert E.
      repeat match goal with
             | |- context [if ?c then _ else _] => destruct c
             | |- context [let '(_, _) := ?p in _] => destruct p
             end; discriminate.
Qed.

(** One iteration of the loop at the start of a non-empty element [c]
    consumes the element and performs [seg_step] on the stack. *)
Lemma clean_step_element (rooted : bool) (st : path.cleaner) (s : stack)
    (c tail : bytes) :
  represents rooted st s -> path.rest st = c ++ tail -> c <> [] ->
  slash_free c -> path.element_ends tail = true ->
  exists st', path.clean_step rooted st = Some st' /\ path.rest st' = tail /\
              represents rooted st' (seg_step rooted s c).
Proof.
  intros Hrep E Hc Hs Ht.
  pose proof (copy_represents rooted st s c tail Hrep Hc Hs Ht) as Hcopy.
  pose proof (dotdot_represents rooted st s tail Hrep) as Hdd.
  cbv zeta in Hcopy, Hdd. destruct Hcopy as (o2 & Hcp & Hrep2).
  destruct c as [|c0 c']; [congruence|].
  inversion Hs as [|? ? Hs0 Hs']; subst.
  unfold path.clean_step. rewrite E in *. cbn [app]. rewrite Hs0.
  rewrite (element_ends_app c' tail Hs' Ht).
  destruct c' as [|c1 c''].
  - (* an element of one byte *)
    cbn [app]. unfold seg_step. cbn [is_dot_elem is_dotdot_elem].
    destruct (is_dot c0); cbn [andb].
    + eexists. split; [reflexivity|]. split; [reflexivity|].
      destruct Hrep. now constructor.
    + cbn [app] in Hcp. rewrite Hcp.
      eexists. split; [reflexivity|]. split; [reflexivity | exact Hrep2].
  - inversion Hs' as [|? ? Hs1 Hs'']; subst.
    rewrite andb_false_r. cbn [app tl].
    rewrite (element_ends_app c'' tail Hs'' Ht).
    destruct c'' as [|c2 c3].
    + (* an element of two bytes *)
      rewrite andb_true_r. unfold seg_step at 1.
      cbn [is_dot_elem is_dotdot_elem app].
      destruct (is_dot c0 && is_dot c1) eqn:D.
      * apply andb_prop in D. destruct D as [D0 D1].
        apply is_dot_true in D0, D1. subst c0 c1.
        destruct Hdd as [Hr Hrepd].
        destruct (path.dotdot st <? List.length (path.out st))%nat;
          [|destruct (negb rooted)];
          (eexists; split; [reflexivity|]; split; [exact Hr | exact Hrepd]).
      * cbn [app] in Hcp. rewrite Hcp.
        eexists. split; [reflexivity|]. split; [reflexivity | exact Hrep2].
    + rewrite !andb_false_r. cbn [app] in Hcp |- *. rewrite Hcp.
      eexists. split; [reflexivity|]. split; [reflexivity|].
      exact Hrep2.
Qed.

Lemma clean_loop_done (fuel : nat) (rooted : bool) (st : path.cleaner) :
  path.rest st = [] -> path.clean_loop fuel rooted st = st.
Proof.
  intros E. destruct fuel; [reflexivity|].
  cbn [path.clean_loop]. unfold path.clean_step. now rewrite E.
Qed.

(** The loop, run on the elements [cs] with enough fuel, folds [seg_step]
    over them. *)
Lemma clean_loop_elements (rooted : bool) (cs : list bytes) :
  cs <> [] -> Forall slash_free cs ->
  forall (fuel : nat) (st : path.cleaner) (s : stack),
    represents rooted st s -> path.rest st = join_slash cs ->
    (List.length (path.rest st) <= fuel)%nat ->
    represents rooted (path.clean_loop fuel rooted st)
               (fold_left (seg_step rooted) cs s).
Proof.
  induction cs as [|c cs IH]; intros Hne Hf fuel st s Hrep E Hfuel;
    [congruence|].
  inversion Hf as [|? ? Hc Hcs]; subst.
  destruct cs as [|c2 cs].
  - (* the last element *)
    cbn [join_slash] in E. cbn [fold_left].
    destruct c as [|c0 c'].
    + rewrite clean_loop_done by assumption. exact Hrep.
    + destruct fuel as [|fuel]; [rewrite E in Hfuel; cbn in Hfuel; lia|].
      destruct (clean_step_element rooted st s (c0 :: c') [] Hrep)
        as (st' & Hstep & Hrest & Hrep');
        [now rewrite app_nil_r | discriminate | assumption | reflexivity |].
      cbn [path.clean_loop]. rewrite Hstep.
      rewrite clean_loop_done by assumption. exact Hrep'.
  - rewrite join_slash_cons in E by discriminate.
    cbn [fold_left].
    destruct c as [|c0 c'].
    + (* an empty element: the slash is passed *)
      cbn [app] in E.
      destruct fuel as [|fuel]; [rewrite E in Hfuel; cbn in Hfuel; lia|].
      cbn [path.clean_loop]. rewrite (clean_step_slash rooted st _ E).
      apply IH; try assumption; try discriminate.
      * destruct Hrep. now constructor.
      * reflexivity.
      * cbn [path.rest]. rewrite E in Hfuel. cbn [List.length] in Hfuel. lia.
    + destruct (clean_step_element rooted st s (c0 :: c')
                  ("/"%char :: join_slash (c2 :: cs)) Hrep)
        as (st' & Hstep & Hrest & Hrep');
        [assumption | discriminate | assumption | reflexivity |].
      rewrite E, length_app in Hfuel. cbn [List.length] in Hfuel.
      destruct fuel as [|[|fuel]]; try lia.
      cbn [path.clean_loop]. rewrite Hstep.
      rewrite (clean_step_slash rooted st' _ Hrest).
      apply IH; try assumption; try discriminate.
      * destruct Hrep'. now constructor.
      * reflexivity.
      * cbn [path.rest]. lia.
Qed.

Lemma dot_if_empty_rev (o : bytes) :
  match o with [] => ["."%char] | a :: l => rev (a :: l) end
  = dot_if_empty (rev o).
Proof.
  destruct o as [|x o]; [reflexivity|].
  cbn [rev]. destruct (rev o); reflexivity.
Qed.

(** [path.Clean] computes the element-wise cleaning of its argument. *)
Theorem clean_bytes_spec (p : bytes) : path.clean_bytes p = clean_spec p.
Proof.
  destruct p as [|c p]; [reflexivity|].
  unfold path.clean_bytes, clean_spec, clean_stack. cbv zeta.
  rewrite dot_if_empty_rev. f_equal.
  destruct (is_slash c) eqn:Ec.
  - pose proof (clean_loop_elements true (components p) (components_not_nil p)
                  (components_slash_free p) (List.length (c :: p))
                  (path.mkCleaner p ["/"%char] 1) (mkStack 0 [])) as H.
    destruct H as [Ho _ _ _].
    + constructor; try reflexivity. constructor.
    + cbn [path.rest]. now rewrite join_components.
    + cbn. lia.
    + rewrite Ho. apply rev_involutive.
  - pose proof (clean_loop_elements false (components (c :: p))
                  (components_not_nil _) (components_slash_free _)
                  (List.length (c :: p))
                  (path.mkCleaner (c :: p) [] 0) (mkStack 0 [])) as H.
    destruct H as [Ho _ _ _].
    + constructor; try reflexivity. constructor.
    + cbn [path.rest]. now rewrite join_components.
    + cbn. lia.
    + rewrite Ho. apply rev_involutive.
Qed.

(** ** Consequences: names, appended names, idempotence *)

Lemma is_name_spec (c : bytes) :
  is_name c = true <->
  c <> [] /\ slash_free c /\ is_dot_elem c = false /\ is_dotdot_elem c = false.
Proof.
  unfold is_name, slash_free. rewrite !andb_true_iff, !negb_true_iff.
  rewrite forallb_forall, Forall_forall, Nat.eqb_neq.
  split.
  - intros [[[H1 H2] H3] H4]. repeat split; try assumption.
    + intros E. subst c. now apply H1.
    + intros x Hx. specialize (H2 x Hx). now apply negb_true_iff in H2.
  - intros (H1 & H2 & H3 & H4). repeat split; try assumption.
    + destruct c; [congruence | discriminate].
    + intros x Hx. apply negb_true_iff. now apply H2.
Qed.

Lemma seg_step_name (rooted : bool) (s : stack) (c : bytes) :
  is_name c = true -> seg_step rooted s c = mkStack (ups s) (c :: names s).
Proof.
  intros H. apply is_name_spec in H. destruct H as (H1 & _ & H3 & H4).
  unfold seg_step. rewrite H3, H4. destruct c; [congruence | reflexivity].
Qed.

Lemma seg_step_wf (rooted : bool) (s : stack) (c : bytes) :
  slash_free c -> wf_stack rooted s -> wf_stack rooted (seg_step rooted s c).
Proof.
  intros Hc [Hn Hr]. unfold seg_step.
  destruct c as [|c0 c']; [now split|].
  destruct (is_dot_elem (c0 :: c')) eqn:D1; [now split|].
  destruct (is_dotdot_elem (c0 :: c')) eqn:D2.
  - destruct (names s) as [|n below] eqn:E.
    + destruct rooted eqn:R; split; cbn [names ups].
      * rewrite E. constructor.
      * exact Hr.
      * constructor.
      * intros X. discriminate X.
    + inversion Hn; subst. split; assumption.
  - split; cbn [names ups]; [|assumption].
    constructor; [|assumption].
    apply is_name_spec. repeat split; (discriminate || assumption).
Qed.

Lemma fold_seg_step_wf (rooted : bool) (cs : list bytes) (s : stack) :
  Forall slash_free cs -> wf_stack rooted s ->
  wf_stack rooted (fold_left (seg_step rooted) cs s).
Proof.
  intros Hcs. revert s. induction Hcs as [|c cs Hc Hcs IH]; intros s Hs.
  - exact Hs.
  - cbn [fold_left]. apply IH. now apply seg_step_wf.
Qed.

Lemma clean_stack_wf (p : bytes) :
  wf_stack (fst (clean_stack p)) (snd (clean_stack p)).
Proof.
  destruct p as [|c p]; cbn [clean_stack fst snd].
  - split; [constructor | reflexivity].
  - apply fold_seg_step_wf; [apply components_slash_free|].
    split; [constructor | reflexivity].
Qed.

Lemma fold_seg_step_names (rooted : bool) (cs : list bytes) (s : stack) :
  Forall (fun c => is_name c = true) cs ->
  fold_left (seg_step rooted) cs s = mkStack (ups s) (rev cs ++ names s).
Proof.
  intros H. revert s. induction H as [|c cs Hc Hcs IH]; intros s.
  - now destruct s.
  - cbn [fold_left]. rewrite IH, seg_step_name by assumption.
    cbn [ups names rev]. now rewrite <- app_assoc.
Qed.

Lemma fold_seg_step_ups (k : nat) (s : stack) :
  names s = [] ->
  fold_left (seg_step false) (repeat dotdot_elem k) s = mkStack (k + ups s) [].
Proof.
  revert s. induction k as [|k IH]; intros [u n] E; cbn [names] in E; subst n.
  - reflexivity.
  - cbn [repeat fold_left]. unfold seg_step at 2.
    cbn [dotdot_elem is_dot_elem is_dotdot_elem names ups].
    change (is_dot "."%char) with true. cbn [andb].
    rewrite IH by reflexivity. cbn [ups]. f_equal. lia.
Qed.

Lemma render_not_nil_unrooted_head (s : stack) :
  wf_stack false s -> stack_elems s <> [] ->
  exists c r, render false s = c :: r /\ is_slash c = false.
Proof.
  intros [Hn _] Hne. unfold render, stack_elems in *.
  destruct (ups s) as [|k].
  - cbn [repeat app] in *. destruct (rev (names s)) as [|n ns] eqn:E; [congruence|].
    assert (Hin : In n (names s)).
    { apply in_rev. rewrite E. now left. }
    rewrite Forall_forall in Hn. apply Hn, is_name_spec in Hin.
    destruct Hin as (H1 & H2 & _). destruct n as [|c n]; [congruence|].
    inversion H2; subst. exists c.
    destruct ns; cbn [join_slash app]; eexists; split; (reflexivity || assumption).
  - cbn [repeat app dotdot_elem]. exists "."%char.
    destruct (repeat dotdot_elem k ++ rev (names s)); cbn [join_slash app];
      eexists; split; reflexivity.
Qed.

Lemma stack_elems_slash_free (rooted : bool) (s : stack) :
  wf_stack rooted s -> Forall slash_free (stack_elems s).
Proof.
  intros [Hn _]. unfold stack_elems. apply Forall_app. split.
  - apply Forall_forall. intros x Hx. apply repeat_spec in Hx. subst x.
    repeat constructor.
  - apply Forall_rev. eapply Forall_impl; [|exact Hn].
    intros a Ha. now apply is_name_spec in Ha.
Qed.

(** Cleaning the rendering of a stack gives the stack back. *)
Lemma clean_stack_render (rooted : bool) (s : stack) :
  wf_stack rooted s -> stack_elems s <> [] ->
  clean_stack (render rooted s) = (rooted, s).
Proof.
  intros Hwf Hne. pose proof (stack_elems_slash_free rooted s Hwf) as Hsf.
  assert (Hfold : forall r, (r = true -> ups s = 0%nat) ->
            fold_left (seg_step r) (stack_elems s) (mkStack 0 []) = s).
  { intros r Hr. unfold stack_elems. rewrite fold_left_app.
    assert (Hu : fold_left (seg_step r) (repeat dotdot_elem (ups s)) (mkStack 0 [])
                 = mkStack (ups s) []).
    { destruct r.
      - rewrite Hr by reflexivity. reflexivity.
      - rewrite fold_seg_step_ups by reflexivity. cbn [ups]. f_equal. lia. }
    rewrite Hu, fold_seg_step_names.
    - cbn [ups names]. rewrite rev_involutive, app_nil_r. now destruct s.
    - apply Forall_rev. apply Hwf. }
  destruct rooted.
  - unfold render. cbn [clean_stack]. change (is_slash "/"%char) with true.
    cbv iota. rewrite components_join by assumption.
    f_equal. apply Hfold. apply Hwf.
  - destruct (render_not_nil_unrooted_head s Hwf Hne) as (c & r & E & Hc).
    rewrite E. cbn [clean_stack]. rewrite Hc. rewrite <- E.
    unfold render. rewrite components_join by assumption.
    f_equal. apply Hfold. discriminate.
Qed.

(** [Clean] is idempotent. *)
Theorem clean_spec_idempotent (p : bytes) :
  clean_spec (clean_spec p) = clean_spec p.
Proof.
  unfold clean_spec at 2 3.
  pose proof (clean_stack_wf p) as Hwf.
  destruct (clean_stack p) as [rooted s]. cbn [fst snd] in Hwf.
  destruct (stack_elems s) as [|e es] eqn:E.
  - unfold render. rewrite E. destruct rooted; reflexivity.
  - assert (Hne : stack_elems s <> []) by (rewrite E; discriminate).
    assert (Hr : dot_if_empty (render rooted s) = render rooted s).
    { destruct rooted.
      - reflexivity.
      - destruct (render_not_nil_unrooted_head s Hwf Hne) as (c & r & Er & _).
        now rewrite Er. }
    rewrite Hr. unfold clean_spec.
    rewrite (clean_stack_render rooted s Hwf Hne). exact Hr.
Qed.

(** A name appended to a path after a slash is written, by [Clean], after
    the directory prefix of the path. *)
Theorem clean_spec_append_name (p f : bytes) :
  p <> [] -> is_name f = true ->
  clean_spec (p ++ "/"%char :: f) = dir_prefix p ++ f.
Proof.
  intros Hp Hf. destruct p as [|c p]; [congruence|].
  unfold clean_spec, dir_prefix.
  pose proof (clean_stack_wf (c :: p)) as Hwf.
  assert (Hst : clean_stack ((c :: p) ++ "/"%char :: f) =
                (fst (clean_stack (c :: p)),
                 mkStack (ups (snd (clean_stack (c :: p))))
                         (f :: names (snd (clean_stack (c :: p)))))).
  { cbn [clean_stack app fst snd]. f_equal.
    assert (Hc : components (if is_slash c then p ++ "/"%char :: f
                             else c :: p ++ "/"%char :: f)
                 = components (if is_slash c then p else c :: p) ++ [f]).
    { apply is_name_spec in Hf. destruct Hf as (_ & Hsf & _).
      destruct (is_slash c).
      - rewrite components_app_slash. f_equal.
        now apply components_slash_free_one.
      - change (c :: p ++ "/"%char :: f) with ((c :: p) ++ "/"%char :: f).
        rewrite components_app_slash. f_equal.
        now apply components_slash_free_one. }
    rewrite Hc, fold_left_app. cbn [fold_left]. now apply seg_step_name. }
  rewrite Hst. destruct (clean_stack (c :: p)) as [rooted s].
  cbn [fst snd] in *. destruct Hwf as [Hn Hr].
  assert (Hreal : Forall real_name (names s)).
  { eapply Forall_impl; [|exact Hn]. intros a Ha.
    apply is_name_spec in Ha. now split. }
  pose proof (render_push rooted s f Hreal Hr) as Hpush. cbv zeta in Hpush.
  apply (f_equal (@rev ascii)) in Hpush. rewrite rev_involutive in Hpush.
  rewrite Hpush. clear Hpush.
  assert (Hfne : f <> []) by (apply is_name_spec in Hf; tauto).
  pose proof (stack_elems_not_empty s Hreal) as Hne.
  destruct (stack_elems s) as [|e es] eqn:E.
  - unfold render. rewrite E.
    destruct rooted; cbn [join_slash List.length Nat.eqb negb andb orb rev app];
      rewrite ?rev_app_distr, ?rev_involutive; cbn [rev app];
      rewrite ?app_nil_r, ?rev_involutive; destruct f; try congruence;
      reflexivity.
  - assert (HR : exists y ys, render rooted s = y :: ys /\
                   ((rooted && negb (List.length (render rooted s) =? 1)%nat)
                    || (negb rooted
                        && negb (List.length (render rooted s) =? 0)%nat)) = true).
    { pose proof (join_slash_not_nil (e :: es) ltac:(discriminate) Hne) as Hj.
      unfold render. rewrite E.
      destruct (join_slash (e :: es)) as [|x xs]; [congruence|].
      destruct rooted; eexists; eexists; split; reflexivity. }
    destruct HR as (y & ys & ER & Hcond). rewrite Hcond.
    rewrite rev_app_distr, rev_involutive. cbn [rev].
    rewrite rev_involutive, ER. reflexivity.
Qed.

(** ** [path.Clean] and [path.Join] on strings *)

Lemma Clean_spec (p : string) : path.Clean p = of_bytes (clean_spec (to_bytes p)).
Proof. unfold path.Clean. now rewrite clean_bytes_spec. Qed.

Lemma clean_spec_relative (p : bytes) :
  relative p -> clean_spec p = ["."%char] \/ relative (clean_spec p).
Proof.
  intros Hp. destruct p as [|c p]; [contradiction|]. cbn [relative] in Hp.
  unfold clean_spec.
  pose proof (clean_stack_wf (c :: p)) as Hwf.
  assert (Hr : fst (clean_stack (c :: p)) = false) by (cbn; exact Hp).
  destruct (clean_stack (c :: p)) as [rooted s]. cbn [fst snd] in *. subst rooted.
  destruct (stack_elems s) as [|e es] eqn:E.
  - left. unfold render. now rewrite E.
  - right.
    destruct (render_not_nil_unrooted_head s Hwf) as (x & r & Er & Hx);
      [rewrite E; discriminate|].
    rewrite Er. exact Hx.
Qed.

Lemma dir_prefix_clean (p : bytes) :
  clean_spec p <> ["."%char] -> clean_spec p <> ["/"%char] ->
  dir_prefix (clean_spec p) = clean_spec p ++ ["/"%char].
Proof.
  intros Hdot Hroot. unfold clean_spec in *. unfold dir_prefix.
  pose proof (clean_stack_wf p) as Hwf.
  destruct (clean_stack p) as [rooted s]. cbn [fst snd] in Hwf.
  destruct (stack_elems s) as [|e es] eqn:E.
  - exfalso. unfold render in *. rewrite E in *.
    destruct rooted; cbn in *; congruence.
  - assert (Hne : stack_elems s <> []) by (rewrite E; discriminate).
    assert (Hr : dot_if_empty (render rooted s) = render rooted s).
    { destruct rooted; [reflexivity|].
      destruct (render_not_nil_unrooted_head s Hwf Hne) as (c & r & Er & _).
      now rewrite Er. }
    rewrite Hr, (clean_stack_render rooted s Hwf Hne), E. reflexivity.
Qed.

(** A path made of names is left as it is. *)
Lemma clean_spec_plain (p : bytes) :
  forallb is_name (components p) = true -> clean_spec p = p.
Proof.
  intros H. rewrite forallb_forall in H.
  assert (Hall : Forall (fun c => is_name c = true) (components p))
    by (apply Forall_forall; exact H).
  destruct p as [|c p]; [discriminate (H [] (or_introl eq_refl))|].
  unfold clean_spec. cbn [clean_stack].
  destruct (is_slash c) eqn:Ec.
  - exfalso. cbn [components] in H. rewrite Ec in H.
    discriminate (H [] (or_introl eq_refl)).
  - rewrite fold_seg_step_names by assumption.
    unfold render, stack_elems. cbn [ups names repeat app].
    rewrite app_nil_r, rev_involutive, join_components. reflexivity.
Qed.

Theorem Clean_plain (p : string) : is_plain_path p = true -> path.Clean p = p.
Proof.
  intros H. rewrite Clean_spec, clean_spec_plain by exact H. apply of_to_bytes.
Qed.

Lemma total_size_ge (elem : list string) (n : nat) :
  (n <= fold_left (fun n e => (n + String.length e)%nat) elem n)%nat.
Proof.
  revert n. induction elem as [|e elem IH]; intros n; cbn [fold_left]; [lia|].
  specialize (IH (n + String.length e)%nat). lia.
Qed.

Lemma length_to_bytes (s : string) : List.length (to_bytes s) = String.length s.
Proof. induction s as [|c s IH]; cbn; [reflexivity | now rewrite <- IH]. Qed.

Lemma total_size_gt (elem : list string) (e : string) (n : nat) :
  In e elem -> e <> ""%string ->
  (n < fold_left (fun n e => (n + String.length e)%nat) elem n)%nat.
Proof.
  intros Hin He. revert n. induction elem as [|x elem IH]; intros n;
    [contradiction|].
  cbn [fold_left]. destruct Hin as [-> | Hin].
  - pose proof (total_size_ge elem (n + String.length e)).
    destruct e; [congruence | cbn in *; lia].
  - specialize (IH Hin (n + String.length x)%nat). lia.
Qed.

Lemma total_size_pos (elem : list string) (e : string) :
  In e elem -> e <> ""%string -> (path.total_size elem =? 0)%nat = false.
Proof.
  intros Hin He. apply Nat.eqb_neq. unfold path.total_size.
  pose proof (total_size_gt elem e 0 Hin He). lia.
Qed.

Lemma join_loop_nonempty (elem : list string) (buf : bytes) :
  buf <> [] ->
  path.join_loop buf elem
  = buf ++ List.concat (map (fun e => "/"%char :: to_bytes e) elem).
Proof.
  revert buf. induction elem as [|e elem IH]; intros buf Hb; cbn [path.join_loop].
  - cbn. now rewrite app_nil_r.
  - destruct buf as [|b buf]; [congruence|].
    rewrite IH by discriminate. cbn [map List.concat].
    now rewrite <- app_assoc.
Qed.

(** [path.Join] of a first element that is not empty: the elements are
    written with a slash between them, and the result is cleaned. *)
Lemma Join_cons (e : string) (elem : list string) :
  e <> ""%string ->
  path.Join (e :: elem)
  = of_bytes (clean_spec (to_bytes e
                          ++ List.concat (map (fun x => "/"%char :: to_bytes x) elem))).
Proof.
  intros He. unfold path.Join.
  rewrite (total_size_pos _ e) by (assumption || now left).
  rewrite clean_bytes_spec. do 2 f_equal.
  cbn [path.join_loop].
  assert (Hb : to_bytes e <> []) by (destruct e; [congruence | discriminate]).
  destruct (to_bytes e) as [|b0 b] eqn:Eb; [congruence|].
  apply join_loop_nonempty. discriminate.
Qed.

Lemma Join_empty_first (f : string) :
  path.Join [""%string; f] = if (String.length f =? 0)%nat then ""%string
                             else path.Clean f.
Proof.
  unfold path.Join, path.total_size. cbn [fold_left String.length Nat.add].
  destruct (String.length f =? 0)%nat eqn:E; [reflexivity|].
  cbn [path.join_loop to_bytes list_ascii_of_string].
  unfold path.Clean. destruct (to_bytes f); reflexivity.
Qed.

(** Joining a name to a directory: the name follows what is written for
    the directory. *)
Theorem Join_name (dir f : string) :
  is_name (to_bytes f) = true ->
  path.Join [dir; f] = of_bytes (join_prefix dir ++ to_bytes f).
Proof.
  intros Hf. unfold join_prefix. destruct dir as [|c dir].
  - rewrite Join_empty_first.
    assert (Hn : to_bytes f <> []) by (apply is_name_spec in Hf; tauto).
    destruct f as [|x f]; [now destruct Hn|]. cbn [String.length Nat.eqb].
    rewrite Clean_plain; [cbn [app]; symmetry; apply of_to_bytes|].
    unfold is_plain_path. apply is_name_spec in Hf as Hf'.
    destruct Hf' as (_ & Hsf & _).
    rewrite components_slash_free_one by assumption. cbn [forallb].
    now rewrite Hf.
  - rewrite Join_cons by discriminate. cbn [map List.concat].
    rewrite app_nil_r, clean_spec_append_name by (assumption || discriminate).
    reflexivity.
Qed.

(** Joining a name to a cleaned directory that is neither [.] nor the
    root appends a slash and the name. *)
Theorem Join_clean_name (p : bytes) (f : string) :
  is_name (to_bytes f) = true ->
  clean_spec p <> ["."%char] -> clean_spec p <> ["/"%char] ->
  path.Join [of_bytes (clean_spec p); f]
  = (of_bytes (clean_spec p) ++ "/" ++ f)%string.
Proof.
  intros Hf Hdot Hroot. rewrite Join_name by assumption.
  unfold join_prefix. rewrite to_of_bytes.
  destruct (clean_spec p) as [|c r] eqn:E.
  - exfalso. unfold clean_spec in E. destruct (clean_stack p) as [rooted s].
    destruct (render rooted s); discriminate.
  - rewrite <- E in *. rewrite dir_prefix_clean by assumption.
    rewrite <- app_assoc, of_bytes_app. cbn [app].
    change ("/"%char :: to_bytes f) with (to_bytes ("/" ++ f)%string).
    now rewrite of_to_bytes.
Qed.

(** ** Package strconv: decimal rendering and parsing *)

Lemma digit_char_spec (d : Z) :
  0 <= d <= 9 ->
  strconv.is_digit (strconv.digit_char d) = true /\
  strconv.digit_val (strconv.digit_char d) = d /\
  (strconv.digit_char d = "0"%char -> d = 0).
Proof.
  intros H.
  assert (E : d = 0 \/ d = 1 \/ d = 2 \/ d = 3 \/ d = 4 \/ d = 5 \/ d = 6
              \/ d = 7 \/ d = 8 \/ d = 9) by lia.
  repeat (destruct E as [E | E]; [subst d; repeat split; try reflexivity;
                                  intros X; discriminate X |]).
  subst d; repeat split; try reflexivity; intros X; discriminate X.
Qed.

Lemma is_digit_plain (c : ascii) :
  strconv.is_digit c = true ->
  is_slash c = false /\ is_dot c = false /\
  Ascii.eqb c "-" = false /\ Ascii.eqb c "+" = false.
Proof.
  destruct c as [b0 b1 b2 b3 b4 b5 b6 b7].
  destruct b0, b1, b2, b3, b4, b5, b6, b7; vm_compute; intros H;
    try discriminate H; repeat split.
Qed.

(** The digits written for [us], with fuel enough: they are decimal
    digits, they parse back to [us], and the first one is [0] for zero
    only. *)
Lemma format_digits_spec (fuel : nat) :
  forall (us : Z) (acc : bytes),
    (0 < fuel)%nat -> 0 <= us < 2 ^ Z.of_nat fuel ->
    exists ds,
      strconv.format_digits fuel us acc = ds ++ acc /\
      ds <> [] /\
      Forall (fun c => strconv.is_digit c = true) ds /\
      (forall rest k, strconv.parse_digits (ds ++ rest) k
                      = strconv.parse_digits rest
                          (k * 10 ^ Z.of_nat (List.length ds) + us)) /\
      (hd "0"%char ds = "0"%char -> us = 0).
Proof.
  induction fuel as [|fuel IH]; intros us acc Hfuel Hus.
  - lia.
  - cbn [strconv.format_digits]. destruct (us <? 10) eqn:E.
    + apply Z.ltb_lt in E.
      destruct (digit_char_spec us ltac:(lia)) as (Hd & Hv & Hz).
      exists [strconv.digit_char us]. repeat split.
      * discriminate.
      * repeat constructor. exact Hd.
      * intros rest k. cbn [app strconv.parse_digits List.length].
        rewrite Hd, Hv. reflexivity.
      * exact Hz.
    + apply Z.ltb_ge in E.
      assert (Hdiv : 0 <= us / 10 < 2 ^ Z.of_nat fuel).
      { split; [apply Z.div_pos; lia|].
        apply Z.div_lt_upper_bound; [lia|].
        rewrite Nat2Z.inj_succ, Z.pow_succ_r in Hus by lia.
        assert (0 < 2 ^ Z.of_nat fuel) by (apply Z.pow_pos_nonneg; lia). lia. }
      assert (Hpos : (0 < fuel)%nat).
      { destruct fuel; [|lia]. cbn in Hdiv.
        pose proof (Z.div_le_lower_bound us 10 1 ltac:(lia) ltac:(lia)). lia. }
      destruct (IH (us / 10) (strconv.digit_char (us mod 10) :: acc) Hpos Hdiv)
        as (ds & Hf & Hne & Hall & Hparse & Hhd).
      pose proof (Z.mod_pos_bound us 10 ltac:(lia)) as Hm.
      destruct (digit_char_spec (us mod 10) ltac:(lia)) as (Hd & Hv & _).
      exists (ds ++ [strconv.digit_char (us mod 10)]). repeat split.
      * rewrite Hf, <- app_assoc. reflexivity.
      * destruct ds; discriminate.
      * apply Forall_app. split; [assumption | repeat constructor; exact Hd].
      * intros rest k. rewrite <- app_assoc, Hparse.
        cbn [app strconv.parse_digits]. rewrite Hd, Hv. f_equal.
        rewrite length_app, Nat2Z.inj_add. cbn [List.length].
        change (Z.of_nat 1) with 1. rewrite Z.pow_add_r, Z.pow_1_r by lia.
        pose proof (Z.div_mod us 10 ltac:(lia)). lia.
      * intros H0. destruct ds as [|d ds]; [congruence|].
        cbn [app hd] in H0. specialize (Hhd H0).
        assert (us < 10) by (pose proof (Z.div_mod us 10 ltac:(lia)); lia).
        lia.
Qed.

Lemma digits_fuel_enough (us : Z) :
  0 <= us -> 0 <= us < 2 ^ Z.of_nat (strconv.digits_fuel us).
Proof.
  intros H. split; [assumption|]. unfold strconv.digits_fuel.
  rewrite Nat2Z.inj_succ, Z2Nat.id by apply Z.log2_nonneg.
  destruct (Z.eq_dec us 0) as [-> | Hn]; [reflexivity|].
  apply Z.log2_spec. lia.
Qed.

(** The rendering of an integer: an optional minus sign and decimal
    digits that parse back to its magnitude, without leading zero. *)
Lemma FormatInt_spec (i : Z) :
  exists ds,
    strconv.FormatInt i = (if i <? 0 then ["-"%char] else []) ++ ds /\
    ds <> [] /\
    Forall (fun c => strconv.is_digit c = true) ds /\
    strconv.parse_digits ds 0 = Some (Z.abs i) /\
    (hd "0"%char ds = "0"%char -> i = 0).
Proof.
  unfold strconv.FormatInt. destruct (i <? 0) eqn:E.
  - apply Z.ltb_lt in E.
    destruct (format_digits_spec (strconv.digits_fuel (- i)) (- i) []
                (Nat.lt_0_succ _) (digits_fuel_enough (- i) ltac:(lia)))
      as (ds & Hf & Hne & Hall & Hparse & Hhd).
    exists ds. rewrite Hf, app_nil_r. repeat split; try assumption.
    + specialize (Hparse [] 0). rewrite app_nil_r in Hparse. rewrite Hparse.
      cbn [strconv.parse_digits]. f_equal. lia.
    + intros H0. specialize (Hhd H0). lia.
  - apply Z.ltb_ge in E.
    destruct (format_digits_spec (strconv.digits_fuel i) i []
                (Nat.lt_0_succ _) (digits_fuel_enough i E))
      as (ds & Hf & Hne & Hall & Hparse & Hhd).
    exists ds. rewrite Hf, app_nil_r. repeat split; try assumption.
    specialize (Hparse [] 0). rewrite app_nil_r in Hparse. rewrite Hparse.
    cbn [strconv.parse_digits]. f_equal. lia.
Qed.

(** [Atoi] reads back what [Itoa] writes for an [int]. *)
Theorem Atoi_Itoa (i : Z) :
  strconv.minInt64 <= i <= strconv.maxInt64 ->
  strconv.Atoi (strconv.Itoa i) = (i, None).
Proof.
  intros Hi. unfold strconv.Atoi, strconv.Itoa. rewrite to_of_bytes.
  destruct (FormatInt_spec i) as (ds & Hf & Hne & Hall & Hparse & _).
  rewrite Hf. destruct ds as [|d ds]; [congruence|].
  inversion Hall as [|? ? Hd _]; subst.
  destruct (is_digit_plain d Hd) as (_ & _ & Hminus & Hplus).
  unfold strconv.ParseInt. destruct (i <? 0) eqn:E.
  - apply Z.ltb_lt in E. cbn [app]. change (Ascii.eqb "-" "-") with true.
    change (Ascii.eqb "-" "+") with false. cbn [orb].
    rewrite Hparse. cbn [negb andb].
    replace (- strconv.minInt64 <? Z.abs i) with false
      by (symmetry; apply Z.ltb_ge; unfold strconv.minInt64 in *; lia).
    f_equal. lia.
  - apply Z.ltb_ge in E. cbn [app]. rewrite Hminus, Hplus. cbn [orb negb andb].
    rewrite Hparse.
    replace (strconv.maxInt64 <? Z.abs i) with false
      by (symmetry; apply Z.ltb_ge; lia).
    f_equal. lia.
Qed.

Lemma is_name_of_plain_bytes (s : bytes) :
  s <> [] -> Forall (fun c => is_slash c = false /\ is_dot c = false) s ->
  is_name s = true.
Proof.
  intros Hn Hall. apply is_name_spec. repeat split.
  - assumption.
  - eapply Forall_impl; [|exact Hall]. now intros a [Ha _].
  - destruct s as [|c [|c' s]]; try reflexivity.
    inversion Hall; subst. cbn. tauto.
  - destruct s as [|c [|c' [|c'' s]]]; try reflexivity.
    inversion Hall as [|? ? [_ Hc] _]; subst. cbn. now rewrite Hc.
Qed.

(** The rendering of an integer is a name: [Clean] keeps it. *)
Lemma Itoa_is_name (i : Z) : is_name (to_bytes (strconv.Itoa i)) = true.
Proof.
  unfold strconv.Itoa. rewrite to_of_bytes.
  destruct (FormatInt_spec i) as (ds & Hf & Hne & Hall & _).
  rewrite Hf. apply is_name_of_plain_bytes.
  - destruct (i <? 0); [discriminate|]. exact Hne.
  - apply Forall_app. split.
    + destruct (i <? 0); repeat constructor.
    + eapply Forall_impl; [|exact Hall]. intros a Ha.
      apply is_digit_plain in Ha. tauto.
Qed.


Lemma is_digit_val (c : ascii) :
  strconv.is_digit c = true -> 0 <= strconv.digit_val c <= 9.
Proof.
  unfold strconv.is_digit, strconv.digit_val. intros H.
  apply andb_prop in H. destruct H as [H1 H2].
  apply N.leb_le in H1, H2. lia.
Qed.

Lemma parse_digits_spec (s : bytes) (n : Z) :
  strconv.parse_digits s n =
  if forallb strconv.is_digit s
  then Some (fold_left (fun n c => n * 10 + strconv.digit_val c) s n)
  else None.
Proof.
  revert n. induction s as [|c s IH]; intros n; cbn [strconv.parse_digits forallb fold_left].
  - reflexivity.
  - destruct (strconv.is_digit c); [apply IH | reflexivity].
Qed.

Lemma magnitude_nonneg (ds : bytes) (n : Z) :
  forallb strconv.is_digit ds = true -> 0 <= n ->
  0 <= fold_left (fun n c => n * 10 + strconv.digit_val c) ds n.
Proof.
  revert n. induction ds as [|c ds IH]; intros n H Hn; cbn [fold_left]; [assumption|].
  cbn [forallb] in H. apply andb_prop in H. destruct H as [Hc Hds].
  apply IH; [assumption|]. pose proof (is_digit_val c Hc). lia.
Qed.

(** The range check of [ParseInt] on the digits [body], [neg] telling
    whether a minus sign came before them. *)
Lemma ParseInt_body (neg : bool) (body : bytes) :
  let r := match strconv.parse_digits body 0 with
           | None => (0, Some strconv.ErrSyntax)
           | Some un =>
               if negb neg && (strconv.maxInt64 <? un)
               then (strconv.maxInt64, Some strconv.ErrRange)
               else if neg && (- strconv.minInt64 <? un)
                    then (strconv.minInt64, Some strconv.ErrRange)
                    else (if neg then - un else un, None)
           end in
  let v := if neg then - magnitude body else magnitude body in
  (forallb strconv.is_digit body && (strconv.minInt64 <=? v)
   && (v <=? strconv.maxInt64) = true -> r = (v, None)) /\
  (forallb strconv.is_digit body && (strconv.minInt64 <=? v)
   && (v <=? strconv.maxInt64) = false -> exists e, snd r = Some e).
Proof.
  cbv zeta. rewrite parse_digits_spec. unfold magnitude.
  destruct (forallb strconv.is_digit body) eqn:Ed.
  2:{ split; [intros H; discriminate H | intros _; now eexists]. }
  pose proof (magnitude_nonneg body 0 Ed ltac:(lia)) as Hm.
  set (un := fold_left (fun n c => n * 10 + strconv.digit_val c) body 0) in *.
  cbn [andb]. unfold strconv.minInt64, strconv.maxInt64 in *.
  destruct neg; cbn [negb andb].
  - destruct (- -9223372036854775808 <? un) eqn:E1.
    + apply Z.ltb_lt in E1. split; [|intros _; now eexists].
      intros H. apply andb_prop in H. destruct H as [H _].
      apply Z.leb_le in H. lia.
    + apply Z.ltb_ge in E1. split; [reflexivity|].
      intros H. apply andb_false_iff in H.
      destruct H as [H | H]; apply Z.leb_gt in H; lia.
  - destruct (9223372036854775807 <? un) eqn:E1.
    + apply Z.ltb_lt in E1. split; [|intros _; now eexists].
      intros H. apply andb_prop in H. destruct H as [_ H].
      apply Z.leb_le in H. lia.
    + apply Z.ltb_ge in E1. split; [reflexivity|].
      intros H. apply andb_false_iff in H.
      destruct H as [H | H]; apply Z.leb_gt in H; lia.
Qed.

(** [Atoi] accepts the numerals that denote an [int], and nothing else. *)
Theorem Atoi_numeral (s : string) :
  (is_int_numeral s = true ->
   strconv.Atoi s = (numeral_value (to_bytes s), None)) /\
  (is_int_numeral s = false -> exists e, snd (strconv.Atoi s) = Some e).
Proof.
  unfold is_int_numeral, strconv.Atoi, strconv.ParseInt, is_numeral, numeral_value.
  destruct (to_bytes s) as [|c b].
  { split; [intros H; discriminate H | intros _; now eexists]. }
  cbn [numeral_digits].
  destruct (Ascii.eqb c "-") eqn:Em; destruct (Ascii.eqb c "+") eqn:Ep;
    cbn [orb].
  - apply Ascii.eqb_eq in Em, Ep. congruence.
  - destruct b as [|d ds].
    { split; [intros H; discriminate H | intros _; now eexists]. }
    apply (ParseInt_body true (d :: ds)).
  - destruct b as [|d ds].
    { split; [intros H; discriminate H | intros _; now eexists]. }
    apply (ParseInt_body false (d :: ds)).
  - apply (ParseInt_body false (c :: b)).
Qed.

(** ** Build discovery *)

Lemma getBuildIDFromBuildPath_spec (buildPath : string) :
  match build_id_of buildPath with
  | Some id => getBuildIDFromBuildPath buildPath = (id, None)
  | None => exists e, snd (getBuildIDFromBuildPath buildPath) = Some e
  end.
Proof.
  unfold build_id_of, getBuildIDFromBuildPath, last_element.
  destruct (path.Split (strings.TrimRight buildPath " /")) as [dir buildIDStr].
  cbn [snd]. destruct (Atoi_numeral buildIDStr) as [Hok Hko].
  destruct (is_int_numeral buildIDStr).
  - now rewrite Hok.
  - destruct (Hko eq_refl) as [e He]. unfold wrap_num. rewrite He.
    cbn. now eexists.
Qed.

Lemma GetBuilds_loop (j : Job.t) (paths : list string) (builds : list Build.t) :
  fold_left
    (fun builds gcsBuildPath =>
       let '(buildID, err) := getBuildIDFromBuildPath gcsBuildPath in
       match err with
       | Some _ => builds
       | None => builds ++ [Job_NewBuild j buildID]
       end)
    paths builds
  = builds ++ flat_map (fun p => match build_id_of p with
                                 | Some id => [Job_NewBuild j id]
                                 | None => []
                                 end) paths.
Proof.
  revert builds. induction paths as [|p paths IH]; intros builds;
    cbn [fold_left flat_map].
  - now rewrite app_nil_r.
  - rewrite IH. pose proof (getBuildIDFromBuildPath_spec p) as H.
    destruct (build_id_of p) as [id|].
    + rewrite H. now rewrite <- app_assoc.
    + destruct H as [e He].
      destruct (getBuildIDFromBuildPath p) as [n err]. cbn [snd] in He.
      now rewrite He.
Qed.

Lemma GetFinishedBuilds_filter (g : GCS) (j : Job.t) :
  GetFinishedBuilds g j = filter (IsFinished g) (GetBuilds g j).
Proof.
  unfold GetFinishedBuilds. generalize (GetBuilds g j) as builds.
  assert (H : forall builds acc,
            fold_left (fun finishedBuilds build =>
                         if Bool.eqb true (IsFinished g build)
                         then finishedBuilds ++ [build] else finishedBuilds)
                      builds acc
            = acc ++ filter (IsFinished g) builds).
  { induction builds as [|b builds IH]; intros acc; cbn [fold_left filter].
    - now rewrite app_nil_r.
    - rewrite IH. destruct (IsFinished g b); cbn [Bool.eqb].
      + now rewrite <- app_assoc.
      + reflexivity. }
  intros builds. apply (H builds []).
Qed.

Lemma scan_lines_kept (checkLog : list string -> option string)
    (lines : list string) :
  scan_lines checkLog lines = kept_fragments checkLog lines.
Proof.
  unfold scan_lines, kept_fragments.
  assert (H : forall logs,
            fold_left (fun logs text =>
                         match checkLog (strings.Fields text) with
                         | Some s => logs ++ [s]
                         | None => logs
                         end) lines logs
            = logs ++ flat_map (fun text =>
                                  match checkLog (strings.Fields text) with
                                  | Some s => [s]
                                  | None => []
                                  end) lines).
  { induction lines as [|l lines IH]; intros logs; cbn [fold_left flat_map].
    - now rewrite app_nil_r.
    - rewrite IH. destruct (checkLog (strings.Fields l)).
      + now rewrite <- app_assoc.
      + reflexivity. }
  apply (H []).
Qed.

(** ** Sorting *)

Lemma swo_asym {A : Type} (less : A -> A -> bool) (a b : A) :
  strict_weak_order less -> less a b = true -> less b a = false.
Proof.
  intros (Hirr & Htr & _) Hab. destruct (less b a) eqn:E; [|reflexivity].
  rewrite <- (Hirr a). symmetry. now apply (Htr a b a).
Qed.

Lemma insert_back_perm {A : Type} (less : A -> A -> bool) (x : A)
    (prefix : list A) :
  Permutation (insert_back less x prefix) (x :: prefix).
Proof.
  induction prefix as [|y prefix IH]; cbn [insert_back]; [reflexivity|].
  destruct (less x y); [|reflexivity].
  rewrite IH. apply perm_swap.
Qed.

Lemma insert_back_sorted {A : Type} (less : A -> A -> bool) (x : A)
    (prefix : list A) :
  strict_weak_order less ->
  StronglySorted (fun a b => less a b = false) prefix ->
  StronglySorted (fun a b => less a b = false) (insert_back less x prefix).
Proof.
  intros Hswo Hs. induction Hs as [|y prefix Hs IH Hy]; cbn [insert_back].
  - repeat constructor.
  - destruct (less x y) eqn:E.
    + constructor; [exact IH|].
      apply Forall_forall. intros w Hw.
      apply (Permutation_in _ (insert_back_perm less x prefix)) in Hw.
      destruct Hw as [<- | Hw].
      * now apply swo_asym.
      * rewrite Forall_forall in Hy. now apply Hy.
    + constructor; [now constructor|].
      constructor; [exact E|].
      apply Forall_forall. intros w Hw. rewrite Forall_forall in Hy.
      destruct Hswo as (_ & _ & Hneg). apply (Hneg x y w E). now apply Hy.
Qed.

Lemma StronglySorted_snoc {A : Type} (R : A -> A -> Prop) (l : list A) (a : A) :
  StronglySorted R l -> Forall (fun x => R x a) l -> StronglySorted R (l ++ [a]).
Proof.
  induction 1 as [|x l Hs IH Hx]; intros Ha; cbn [app].
  - repeat constructor.
  - inversion Ha; subst. constructor; [now apply IH|].
    apply Forall_app. split; [assumption | now repeat constructor].
Qed.

Lemma StronglySorted_rev {A : Type} (R : A -> A -> Prop) (l : list A) :
  StronglySorted R l -> StronglySorted (fun a b => R b a) (rev l).
Proof.
  induction 1 as [|x l Hs IH Hx]; cbn [rev]; [constructor|].
  apply StronglySorted_snoc; [exact IH|]. now apply Forall_rev.
Qed.

Lemma StronglySorted_firstn {A : Type} (R : A -> A -> Prop) (n : nat)
    (l : list A) :
  StronglySorted R l -> StronglySorted R (firstn n l).
Proof.
  intros Hs. revert n. induction Hs as [|x l Hs IH Hx]; intros [|n];
    cbn [firstn]; try constructor.
  - apply IH.
  - rewrite Forall_forall in *. intros w Hw. apply Hx.
    rewrite <- (firstn_skipn n l). apply in_or_app. now left.
Qed.

(** The insertion sort meets the contract of [sort.Slice]. *)
Lemma insertionSort_contract : sort_contract insertionSort.
Proof.
  split; intros A less l; unfold insertionSort.
  - assert (H : forall prefix,
              Permutation (fold_left (fun p x => insert_back less x p) l prefix)
                          (rev l ++ prefix)).
    { induction l as [|x l IH]; intros prefix; cbn [fold_left rev app];
        [reflexivity|].
      rewrite IH, <- app_assoc. apply Permutation_app_head.
      apply insert_back_perm. }
    rewrite <- Permutation_rev, H, app_nil_r. symmetry. apply Permutation_rev.
  - intros Hswo. unfold sorted_by.
    apply (StronglySorted_rev (fun a b => less a b = false)).
    assert (H : forall prefix,
              StronglySorted (fun a b => less a b = false) prefix ->
              StronglySorted (fun a b => less a b = false)
                (fold_left (fun p x => insert_back less x p) l prefix)).
    { induction l as [|x l IH]; intros prefix Hp; cbn [fold_left];
        [exact Hp|].
      apply IH. now apply insert_back_sorted. }
    apply H. constructor.
Qed.

(** ** Build ranking *)

Section Ranking.

Context {unmarshalStarted : Unmarshaler Started}.

Lemma startedLess_spec (g : GCS) (a b : Build.t) :
  startedLess g a b =
  match started_time g a, started_time g b with
  | None, _ => false
  | Some _, None => true
  | Some ta, Some tb => tb <? ta
  end.
Proof.
  unfold startedLess, started_time.
  destruct (fst (GetStartedTime g a)) as [ta [ea|]]; [reflexivity|].
  destruct (fst (GetStartedTime g b)) as [tb [eb|]]; reflexivity.
Qed.

(** The comparator of [GetLatestBuilds] is an ordering: builds whose
    time cannot be read come after all others. *)
Lemma startedLess_order (g : GCS) : strict_weak_order (startedLess g).
Proof.
  repeat split.
  - intros a. rewrite startedLess_spec.
    destruct (started_time g a); [apply Z.ltb_irrefl | reflexivity].
  - intros a b c. rewrite !startedLess_spec.
    destruct (started_time g a), (started_time g b), (started_time g c);
      try discriminate; try reflexivity.
    rewrite !Z.ltb_lt. lia.
  - intros a b c. rewrite !startedLess_spec.
    destruct (started_time g a), (started_time g b), (started_time g c);
      try discriminate; try reflexivity.
    rewrite !Z.ltb_ge. lia.
Qed.

End Ranking.

(** ** Path derivation *)

Lemma plain_path_not_empty (e : string) : is_plain_path e = true -> e <> ""%string.
Proof. intros H E. subst e. discriminate H. Qed.

Lemma plain_bytes_join (e : string) (elem : list string) :
  Forall (fun x => is_plain_path x = true) (e :: elem) ->
  let b := to_bytes e ++ List.concat (map (fun x => "/"%char :: to_bytes x) elem) in
  forallb is_name (components b) = true /\ of_bytes b = join_strings (e :: elem).
Proof.
  revert e. induction elem as [|x elem IH]; intros e H; inversion H as [|? ? He Hel];
    subst; cbv zeta; cbn [map List.concat].
  - rewrite app_nil_r. split; [exact He | apply of_to_bytes].
  - specialize (IH x Hel). cbv zeta in IH. destruct IH as [IH1 IH2].
    cbn [app].
    rewrite components_app_slash, forallb_app. split.
    + unfold is_plain_path in He. now rewrite He, IH1.
    + rewrite of_bytes_app, of_to_bytes.
      change (of_bytes ("/"%char :: ?b)) with (String "/" (of_bytes b)).
      cbn [join_strings] in *. rewrite IH2. reflexivity.
Qed.

Lemma to_bytes_join_strings (e : string) (elem : list string) :
  to_bytes (join_strings (e :: elem))
  = to_bytes e ++ List.concat (map (fun x => "/"%char :: to_bytes x) elem).
Proof.
  revert e. induction elem as [|x elem IH]; intros e; cbn [map List.concat].
  - now rewrite app_nil_r.
  - change (join_strings (e :: x :: elem))
      with (e ++ String "/" (join_strings (x :: elem)))%string.
    rewrite to_bytes_app.
    change (to_bytes (String "/" ?t)) with ("/"%char :: to_bytes t).
    now rewrite IH.
Qed.

(** [path.Join] of a first element that is not empty is [path.Clean] of
    the elements written with a slash between them. *)
Theorem Join_Clean (e : string) (elem : list string) :
  e <> ""%string -> path.Join (e :: elem) = path.Clean (join_strings (e :: elem)).
Proof.
  intros He. now rewrite Join_cons, Clean_spec, to_bytes_join_strings.
Qed.

(** [path.Join] of plain paths writes them with a slash between them. *)
Theorem Join_plain (e : string) (elem : list string) :
  Forall (fun x => is_plain_path x = true) (e :: elem) ->
  path.Join (e :: elem) = join_strings (e :: elem).
Proof.
  intros H. inversion H as [|? ? He _]; subst.
  rewrite Join_cons by now apply plain_path_not_empty.
  destruct (plain_bytes_join e elem H) as [H1 H2].
  now rewrite clean_spec_plain.
Qed.

(** The storage path of a job of a known type is a cleaned relative
    path. *)
Lemma NewJob_path_relative (fatalf : fatal_hook)
    (jobName jobType repoName : string) (pullID : Z) (j : Job.t) :
  valid_job_type jobType ->
  NewJob fatalf jobName jobType repoName pullID = Returns j ->
  exists y, relative y /\ Job.StoragePath j = of_bytes (clean_spec y).
Proof.
  intros Hv H. unfold NewJob in H.
  destruct Hv as [-> | [-> | [-> | ->]]];
    match type of H with
    | (if ?c then _ else _) = _ =>
        let v := eval vm_compute in c in change c with v in H; cbv iota in H
    end;
    try match type of H with
    | (if ?c then _ else _) = _ =>
        let v := eval vm_compute in c in change c with v in H; cbv iota in H
    end;
    try match type of H with
    | (if ?c then _ else _) = _ =>
        let v := eval vm_compute in c in change c with v in H; cbv iota in H
    end;
    inversion H; subst j; cbn [Job.StoragePath];
    rewrite Join_cons by discriminate;
    (eexists; split; [|reflexivity]); reflexivity.
Qed.

(** C1, as stated, fails: [path.Join] cleans what it joins, so a job name
    that is not a plain path does not appear verbatim after [logs/]. The
    periodic job named [../x] is stored under [x]. *)
Lemma NewJob_prefix_counterexample :
  NewJob logFatalf "../x" PeriodicJob "" 0
  = Returns (Job.mk "../x" PeriodicJob BucketName "" "x" 0 []) /\
  "x"%string <> ("logs/" ++ "../x")%string.
Proof. split; [reflexivity | discriminate]. Qed.

(** C1 (amended): for every job name, [NewJob] with type Periodic or
    Postsubmit gives the storage path [path.Clean] of [logs/<jobName>];
    with type Presubmit, [path.Clean] of
    [pr-logs/pull/knative_<repo>/<pullID>/<jobName>], the pull ID written
    by [strconv.Itoa] (which [strconv.Atoi] reads back) and saved in the
    job; with type Batch, [path.Clean] of [pr-logs/pull/batch/<jobName>],
    whatever the repository and the pull ID. The cleaned path is the
    template itself when the job name, and [knative_<repo>] for Presubmit,
    is a plain path: names separated by single slashes, none of them
    empty, [.] or [..]. *)
Theorem NewJob_storage_path (fatalf : fatal_hook) (jobName repoName : string)
    (pullID : Z) :
  let periodic := ("logs/" ++ jobName)%string in
  let presubmit := ("pr-logs/pull/" ++ OrgName ++ "_" ++ repoName ++ "/"
                    ++ strconv.Itoa pullID ++ "/" ++ jobName)%string in
  let batch := ("pr-logs/pull/batch/" ++ jobName)%string in
  (forall jobType, jobType = PeriodicJob \/ jobType = PostsubmitJob ->
     NewJob fatalf jobName jobType repoName pullID
     = Returns (Job.mk jobName jobType BucketName "" (path.Clean periodic) 0 [])) /\
  NewJob fatalf jobName PresubmitJob repoName pullID
  = Returns (Job.mk jobName PresubmitJob BucketName "" (path.Clean presubmit)
                    pullID []) /\
  NewJob fatalf jobName BatchJob repoName pullID
  = Returns (Job.mk jobName BatchJob BucketName "" (path.Clean batch) 0 []) /\
  OrgName = "knative"%string /\
  (strconv.minInt64 <= pullID <= strconv.maxInt64 ->
   strconv.Atoi (strconv.Itoa pullID) = (pullID, None)) /\
  (is_plain_path jobName = true ->
   path.Clean periodic = periodic /\
   path.Clean batch = batch /\
   (is_plain_path (OrgName ++ "_" ++ repoName)%string = true ->
    path.Clean presubmit = presubmit)).
Proof.
  cbv zeta. split; [|split; [|split; [|split; [|split]]]].
  - intros jobType [-> | ->]; unfold NewJob;
      match goal with
      | |- (if ?c then _ else _) = _ =>
          let v := eval vm_compute in c in change c with v; cbv iota
      end;
      rewrite Join_Clean by discriminate; reflexivity.
  - unfold NewJob.
    change ((PresubmitJob =? PeriodicJob)%string
            || (PresubmitJob =? PostsubmitJob)%string) with false.
    change ((PresubmitJob =? PresubmitJob)%string) with true. cbv iota.
    rewrite Join_Clean by discriminate. reflexivity.
  - unfold NewJob.
    change ((BatchJob =? PeriodicJob)%string
            || (BatchJob =? PostsubmitJob)%string) with false.
    change ((BatchJob =? PresubmitJob)%string) with false.
    change ((BatchJob =? BatchJob)%string) with true. cbv iota.
    rewrite Join_Clean by discriminate. reflexivity.
  - reflexivity.
  - apply Atoi_Itoa.
  - intros Hname. split; [|split].
    + change ("logs/" ++ jobName)%string with (join_strings ["logs"%string; jobName]).
      rewrite <- Join_Clean by discriminate.
      apply Join_plain. repeat constructor; assumption.
    + change ("pr-logs/pull/batch/" ++ jobName)%string
        with (join_strings ["pr-logs"; "pull"; "batch"; jobName]%string).
      rewrite <- Join_Clean by discriminate.
      apply Join_plain. repeat constructor; assumption.
    + intros Hrepo.
      change ("pr-logs/pull/" ++ OrgName ++ "_" ++ repoName ++ "/"
              ++ strconv.Itoa pullID ++ "/" ++ jobName)%string
        with (join_strings ["pr-logs"; "pull"; (OrgName ++ "_" ++ repoName);
                            strconv.Itoa pullID; jobName]%string).
      rewrite <- Join_Clean by discriminate.
      apply Join_plain. repeat constructor; try assumption.
      unfold is_plain_path.
      rewrite components_slash_free_one, forallb_forall.
      * intros x [<- | []]. apply Itoa_is_name.
      * pose proof (Itoa_is_name pullID) as H. apply is_name_spec in H. tauto.
Qed.

Lemma NewJob_storage_path_witness :
  is_plain_path "pull-serving-unit-tests" = true /\
  is_plain_path (OrgName ++ "_" ++ "serving") = true /\
  path.Clean "pr-logs/pull/knative_serving/4321/pull-serving-unit-tests"
  = "pr-logs/pull/knative_serving/4321/pull-serving-unit-tests"%string.
Proof.
  split; [reflexivity|]. split; [reflexivity|].
  apply (NewJob_storage_path logFatalf "pull-serving-unit-tests" "serving" 4321);
    reflexivity.
Defined.

Lemma Itoa_decimal (i : Z) : 0 <= i -> decimal_of (strconv.Itoa i) i.
Proof.
  intros Hi. unfold decimal_of, strconv.Itoa. rewrite to_of_bytes.
  destruct (FormatInt_spec i) as (ds & Hf & Hne & Hall & Hparse & Hhd).
  replace (i <? 0) with false in Hf by (symmetry; apply Z.ltb_ge; lia).
  cbn [app] in Hf. rewrite Hf.
  assert (Hd : forallb strconv.is_digit ds = true)
    by (apply forallb_forall; rewrite Forall_forall in Hall; exact Hall).
  repeat split; try assumption.
  rewrite parse_digits_spec, Hd in Hparse. inversion Hparse as [Hm].
  unfold magnitude. rewrite Hm. lia.
Qed.

(** C9, as stated, fails: the periodic job named [..] is stored under [.],
    and its build 7 under [7], which does not end with [/7]. *)
Lemma NewBuild_suffix_counterexample :
  NewJob logFatalf ".." PeriodicJob "" 0
  = Returns (Job.mk ".." PeriodicJob BucketName "" "." 0 []) /\
  Build.StoragePath
    (Job_NewBuild (Job.mk ".." PeriodicJob BucketName "" "." 0 []) 7)
  = "7"%string /\
  ~ has_suffix "7" ("/" ++ strconv.Itoa 7).
Proof.
  split; [reflexivity|]. split; [reflexivity|].
  intros [pre H]. destruct pre as [|c pre]; [discriminate H|].
  cbn in H. inversion H as [[Hc Hp]]. destruct pre; discriminate Hp.
Qed.

(** C9 (amended): for every job made by [NewJob] with a known type whose
    storage path is not [.], and every build identifier [id], the build
    [job.NewBuild(id)] has [BuildID = id] and its storage path is the
    storage path of the job followed by [/] and [strconv.Itoa id]; for a
    non-negative [id] this is its decimal rendering without leading
    zeros. *)
Theorem NewBuild_storage_path (fatalf : fatal_hook)
    (jobName jobType repoName : string) (pullID : Z) (j : Job.t) (id : Z) :
  valid_job_type jobType ->
  NewJob fatalf jobName jobType repoName pullID = Returns j ->
  Job.StoragePath j <> "."%string ->
  Build.BuildID (Job_NewBuild j id) = id /\
  Build.StoragePath (Job_NewBuild j id)
  = (Job.StoragePath j ++ "/" ++ strconv.Itoa id)%string /\
  has_suffix (Build.StoragePath (Job_NewBuild j id)) ("/" ++ strconv.Itoa id) /\
  (0 <= id -> decimal_of (strconv.Itoa id) id).
Proof.
  intros Hv Hj Hdot.
  destruct (NewJob_path_relative _ _ _ _ _ _ Hv Hj) as (y & Hy & Hp).
  assert (Hpath : Build.StoragePath (Job_NewBuild j id)
                  = (Job.StoragePath j ++ "/" ++ strconv.Itoa id)%string).
  { cbn [Job_NewBuild Build.StoragePath]. rewrite Hp.
    apply Join_clean_name.
    - apply Itoa_is_name.
    - intros E. apply Hdot. now rewrite Hp, E.
    - intros E. destruct (clean_spec_relative y Hy) as [H | H];
        rewrite E in H; [discriminate H | cbn in H; discriminate H]. }
  split; [reflexivity|]. split; [exact Hpath|]. split.
  - exists (Job.StoragePath j). exact Hpath.
  - apply Itoa_decimal.
Qed.

Lemma NewBuild_storage_path_witness :
  Build.StoragePath
    (Job_NewBuild (Job.mk "ci" PeriodicJob BucketName "" "logs/ci" 0 []) 42)
  = "logs/ci/42"%string.
Proof.
  apply (NewBuild_storage_path logFatalf "ci" PeriodicJob "" 0
           (Job.mk "ci" PeriodicJob BucketName "" "logs/ci" 0 []) 42).
  - right. right. left. reflexivity.
  - reflexivity.
  - discriminate.
Defined.

(** C7: for every job type other than the four known ones, [NewJob] calls
    the fatal hook with the job type, no storage path having been set;
    the hook of the package, [log.Fatalf], ends the process, so that no
    job is returned. *)
Theorem NewJob_unknown_type_fatal (jobName jobType repoName : string)
    (pullID : Z) :
  ~ valid_job_type jobType ->
  (forall fatalf : fatal_hook,
     NewJob fatalf jobName jobType repoName pullID
     = match fatalf "unknown job spec type: %v"%string jobType with
       | HookExits code => Exits code
       | HookReturns => Returns (Job.mk jobName jobType BucketName "" "" 0 [])
       end) /\
  NewJob logFatalf jobName jobType repoName pullID = Exits 1 /\
  (forall j, NewJob logFatalf jobName jobType repoName pullID <> Returns j).
Proof.
  intros Hv.
  assert (H : forall fatalf : fatal_hook,
            NewJob fatalf jobName jobType repoName pullID
            = match fatalf "unknown job spec type: %v"%string jobType with
              | HookExits code => Exits code
              | HookReturns => Returns (Job.mk jobName jobType BucketName "" "" 0 [])
              end).
  { intros fatalf. unfold NewJob, valid_job_type in *.
    destruct (String.eqb_spec jobType PeriodicJob); [tauto|].
    destruct (String.eqb_spec jobType PostsubmitJob); [tauto|].
    destruct (String.eqb_spec jobType PresubmitJob); [tauto|].
    destruct (String.eqb_spec jobType BatchJob); [tauto|].
    reflexivity. }
  split; [exact H|]. split; [apply H|].
  intros j. rewrite H. discriminate.
Qed.

Lemma NewJob_unknown_type_fatal_witness :
  NewJob logFatalf "ci" "nightly" "serving" 0 = Exits 1.
Proof.
  apply (NewJob_unknown_type_fatal "ci" "nightly" "serving" 0).
  intros [H | [H | [H | H]]]; discriminate H.
Defined.

(** ** Build discovery and ranking: the claims *)

(** C2, as stated, fails: [strconv.Atoi] reads signed numerals, and
    nothing in [GetBuilds] looks at the sign. Of the listed children [3],
    [abc], [07], [10] and [-1], the last one yields a build too, of
    identifier [-1]. *)
Lemma GetBuilds_negative_counterexample :
  map Build.BuildID (GetBuilds listed_gcs ci_job) = [3; 7; 10; -1] /\
  In (Job_NewBuild ci_job (-1)) (GetBuilds listed_gcs ci_job).
Proof. split; [reflexivity|]. vm_compute. tauto. Qed.

(** C2 (amended): [GetBuilds] yields, in the order of the listing, one
    build per listed child whose last path element (trailing blanks and
    slashes left out) is an optionally signed decimal numeral in the range
    of [int], with the value of the numeral as identifier, and passes over
    every other child without error; the child [-1] yields the build of
    identifier [-1]. *)
Theorem GetBuilds_spec (g : GCS) (j : Job.t) :
  GetBuilds g j
  = flat_map (fun child => match build_id_of child with
                           | Some id => [Job_NewBuild j id]
                           | None => []
                           end)
             (ListDirectChildren g (Job.Bucket j) (Job.StoragePath j)) /\
  (forall child,
     match build_id_of child with
     | Some id => getBuildIDFromBuildPath child = (id, None)
     | None => exists e, snd (getBuildIDFromBuildPath child) = Some e
     end) /\
  build_id_of "-1" = Some (-1) /\ build_id_of "abc" = None.
Proof.
  split; [|split; [|split; reflexivity]].
  - unfold GetBuilds. now rewrite GetBuilds_loop.
  - apply getBuildIDFromBuildPath_spec.
Qed.

Section RankingClaims.

Context {unmarshalStarted : Unmarshaler Started}.
Variable sort_Slice : sorter.

(** C10: for every negative [count], the test [len(builds) < count] of
    [GetLatestBuilds] fails, and the slice expression [builds[:count]]
    panics; for every other [count] the function returns: a caller has to
    pass a [count] that is not negative. *)
Theorem GetLatestBuilds_negative_count (g : GCS) (j : Job.t) (count : Z) :
  (count < 0 ->
   (Z.of_nat (List.length
                (sort_Slice _ (startedLess g) (GetFinishedBuilds g j)))
    <? count) = false /\
   GetLatestBuilds sort_Slice g j count = Panics "slice bounds out of range") /\
  (0 <= count ->
   exists builds, GetLatestBuilds sort_Slice g j count = Returns builds).
Proof.
  unfold GetLatestBuilds.
  set (builds := sort_Slice _ (startedLess g) (GetFinishedBuilds g j)).
  split; intros Hc.
  - assert (Hguard : (Z.of_nat (List.length builds) <? count) = false)
      by (apply Z.ltb_ge; lia).
    split; [exact Hguard|].
    rewrite Hguard. unfold slice_to.
    replace (count <? 0) with true by (symmetry; apply Z.ltb_lt; lia).
    reflexivity.
  - destruct (Z.of_nat (List.length builds) <? count) eqn:E.
    + now exists builds.
    + unfold slice_to. rewrite E.
      replace (count <? 0) with false by (symmetry; apply Z.ltb_ge; lia).
      now eexists.
Qed.

Hypothesis sort_ok : sort_contract sort_Slice.

(** C3 (amended): for every job and every [count] that is not negative,
    [GetLatestBuilds] returns the first [count] builds, or all of them if
    there are fewer, of the finished builds sorted by the comparator of
    the function: all returned builds have their finished marker, no
    returned build is less than one before it, no build left out is less
    than a returned one, and the comparator puts a build before another
    when its started time is read and the other's is not read or is
    smaller. *)
Theorem GetLatestBuilds_spec (g : GCS) (j : Job.t) (count : Z) :
  0 <= count ->
  exists builds rest,
    GetLatestBuilds sort_Slice g j count = Returns builds /\
    Z.of_nat (List.length builds)
    = Z.min count (Z.of_nat (List.length (GetFinishedBuilds g j))) /\
    Forall (fun b => IsFinished g b = true) builds /\
    sorted_by (startedLess g) builds /\
    Permutation (builds ++ rest) (GetFinishedBuilds g j) /\
    (forall a b, In a builds -> In b rest -> startedLess g b a = false) /\
    (Z.of_nat (List.length (GetFinishedBuilds g j)) <= count -> rest = []) /\
    (forall a b, startedLess g a b = true <->
                 exists ta, started_time g a = Some ta /\
                            (started_time g b = None \/
                             exists tb, started_time g b = Some tb /\ tb < ta)).
Proof.
  intros Hc. destruct sort_ok as [Hperm Hsort].
  set (finished := GetFinishedBuilds g j).
  set (sorted := sort_Slice _ (startedLess g) finished).
  assert (Hp : Permutation sorted finished) by apply Hperm.
  assert (Hs : sorted_by (startedLess g) sorted)
    by (apply Hsort, startedLess_order).
  assert (Hlen : List.length sorted = List.length finished)
    by now apply Permutation_length.
  assert (Hfin : Forall (fun b => IsFinished g b = true) sorted).
  { apply Forall_forall. intros b Hb.
    apply (Permutation_in _ Hp) in Hb. subst finished.
    rewrite GetFinishedBuilds_filter in Hb. now apply filter_In in Hb. }
  exists (firstn (Z.to_nat count) sorted), (skipn (Z.to_nat count) sorted).
  split; [|split; [|split; [|split; [|split; [|split; [|split]]]]]].
  - unfold GetLatestBuilds. fold finished. fold sorted.
    destruct (Z.of_nat (List.length sorted) <? count) eqn:E.
    + apply Z.ltb_lt in E. rewrite firstn_all2 by lia. reflexivity.
    + apply Z.ltb_ge in E. unfold slice_to.
      replace (count <? 0) with false by (symmetry; apply Z.ltb_ge; lia).
      replace (Z.of_nat (List.length sorted) <? count) with false
        by (symmetry; apply Z.ltb_ge; lia).
      reflexivity.
  - rewrite length_firstn, Hlen. lia.
  - rewrite Forall_forall in *. intros b Hb. apply Hfin.
    rewrite <- (firstn_skipn (Z.to_nat count) sorted).
    apply in_or_app. now left.
  - now apply StronglySorted_firstn.
  - now rewrite firstn_skipn.
  - intros a b Ha Hb.
    rewrite <- (firstn_skipn (Z.to_nat count) sorted) in Hs.
    unfold sorted_by in Hs. clear - Hs Ha Hb.
    induction (firstn (Z.to_nat count) sorted) as [|x l IH];
      [contradiction|].
    cbn [app] in Hs. inversion Hs as [|? ? Hs' Hx]; subst.
    destruct Ha as [<- | Ha]; [|now apply IH].
    rewrite Forall_forall in Hx. apply Hx, in_or_app. now right.
  - intros Hle. apply skipn_all2. rewrite Hlen. lia.
  - intros a b. rewrite startedLess_spec.
    destruct (started_time g a) as [ta|], (started_time g b) as [tb|].
    + rewrite Z.ltb_lt. split.
      * intros H. exists ta. split; [reflexivity|]. right. now exists tb.
      * intros (ta' & Ea & [Eb | (tb' & Eb & H)]); [discriminate|].
        now inversion Ea; inversion Eb; subst.
    + split; [|reflexivity]. intros _. exists ta. now split; [|left].
    + split; [discriminate|]. now intros (ta' & Ea & _).
    + split; [discriminate|]. now intros (ta' & Ea & _).
Qed.

End RankingClaims.

(** C3, as stated, fails for a negative [count], which does not exceed the
    number of finished builds: the slice expression panics and nothing is
    returned. *)
Lemma GetLatestBuilds_count_counterexample :
  -1 <= Z.of_nat (List.length (GetFinishedBuilds ci_gcs ci_job)) /\
  @GetLatestBuilds example_Started insertionSort ci_gcs ci_job (-1)
  = Panics "slice bounds out of range".
Proof. split; [vm_compute; discriminate | reflexivity]. Qed.

Lemma GetLatestBuilds_spec_witness :
  exists builds,
    @GetLatestBuilds example_Started insertionSort ci_gcs ci_job 2
    = Returns builds /\
    Z.of_nat (List.length builds) = 2 /\
    Forall (fun b => IsFinished ci_gcs b = true) builds.
Proof.
  destruct (@GetLatestBuilds_spec example_Started insertionSort
              insertionSort_contract ci_gcs ci_job 2)
    as (builds & rest & H1 & H2 & H3 & _); [lia|].
  exists builds. split; [exact H1|]. split; [|exact H3].
  rewrite H2. reflexivity.
Defined.

Lemma GetLatestBuilds_negative_count_witness :
  @GetLatestBuilds example_Started insertionSort ci_gcs ci_job (-3)
  = Panics "slice bounds out of range".
Proof.
  apply (@GetLatestBuilds_negative_count example_Started insertionSort
           ci_gcs ci_job (-3)).
  lia.
Defined.

(** The ranking of the example: the builds finished at 100 and 50 come
    first, the one whose time cannot be read last. *)
Example GetLatestBuilds_example :
  @GetLatestBuilds example_Started insertionSort ci_gcs ci_job 2
  = Returns [ci_build 3; ci_build 1] /\
  @GetLatestBuilds example_Started insertionSort ci_gcs ci_job 5
  = Returns [ci_build 3; ci_build 1; ci_build 2].
Proof. split; reflexivity. Qed.

(** ** Log scanning: the claims *)

(** What [ParseLog] does once the reader is open: the fragments kept from
    the lines are returned with a nil error, whatever the scanner reports
    at the end, and the reader is closed once. *)
Lemma ParseLog_opened (g : GCS) (b : Build.t)
    (checkLog : list string -> option string) (r : Reader) :
  NewReader g (Build.Bucket b) (GetBuildLogPath b) = (Some r, None) ->
  ParseLog g b checkLog
  = (Returns (kept_fragments checkLog (reader_lines r), None),
     [EvOpen (Build.Bucket b) (GetBuildLogPath b);
      EvClose (Build.Bucket b) (GetBuildLogPath b)]).
Proof.
  intros H. unfold ParseLog. rewrite H. cbn [Reader_Close app].
  now rewrite scan_lines_kept.
Qed.



(** C4 fails on the code: when the scanner stops on a read error,
    [ParseLog] returns the fragments collected so far with a nil error;
    [scanner.Err()] is never looked at. *)
Theorem ParseLog_drops_read_error (g : GCS) (b : Build.t)
    (checkLog : list string -> option string) (r : Reader) (e : error) :
  NewReader g (Build.Bucket b) (GetBuildLogPath b) = (Some r, None) ->
  reader_err r = Some e ->
  fst (ParseLog g b checkLog)
  = Returns (kept_fragments checkLog (reader_lines r), None).
Proof.
  intros H _. now rewrite (ParseLog_opened g b checkLog r H).
Qed.

Lemma ParseLog_drops_read_error_witness :
  reader_err broken_log = Some (StorageError "connection reset") /\
  fst (ParseLog (example_gcs [] [] (Some broken_log, None)) (ci_build 1)
                keep_errors)
  = Returns (["ERROR disk full"%string], None).
Proof.
  split; [reflexivity|].
  apply (ParseLog_drops_read_error
           (example_gcs [] [] (Some broken_log, None)) (ci_build 1)
           keep_errors broken_log (StorageError "connection reset"));
    reflexivity.
Defined.

(** C5 fails on the code: when [NewReader] fails and returns a nil reader,
    the deferred [f.Close()], registered before the error is looked at,
    dereferences the nil reader: [ParseLog] panics instead of returning
    the error, and nothing is released. When the reader opens, [ParseLog]
    returns and the reader is closed once. *)
Theorem ParseLog_open_failure_panics (g : GCS) (b : Build.t)
    (checkLog : list string -> option string) :
  (forall e : error,
     NewReader g (Build.Bucket b) (GetBuildLogPath b) = (None, Some e) ->
     ParseLog g b checkLog
     = (Panics "invalid memory address or nil pointer dereference",
        [EvOpen (Build.Bucket b) (GetBuildLogPath b)])) /\
  (forall r : Reader,
     NewReader g (Build.Bucket b) (GetBuildLogPath b) = (Some r, None) ->
     exists result,
       ParseLog g b checkLog
       = (Returns result,
          [EvOpen (Build.Bucket b) (GetBuildLogPath b);
           EvClose (Build.Bucket b) (GetBuildLogPath b)])).
Proof.
  split.
  - intros e H. unfold ParseLog. rewrite H. reflexivity.
  - intros r H. rewrite (ParseLog_opened g b checkLog r H). now eexists.
Qed.

Lemma ParseLog_open_failure_panics_witness :
  ParseLog ci_gcs (ci_build 1) keep_errors
  = (Panics "invalid memory address or nil pointer dereference",
     [EvOpen BucketName "logs/ci/1/build-log.txt"]).
Proof.
  destruct (ParseLog_open_failure_panics ci_gcs (ci_build 1) keep_errors)
    as [Hfail _].
  apply (Hfail (StorageError "object doesn't exist")). reflexivity.
Defined.

(** ** Build status: the claims *)

Section StatusClaims.

Context {unmarshalStarted : Unmarshaler Started}.
Context {unmarshalFinished : Unmarshaler Finished}.

Lemma unmarshalJSONFile_time {T : Type} {U : Unmarshaler T} (g : GCS)
    (object : string) (zero : T) (field : T -> Z) :
  (let '((v, err), calls) := unmarshalJSONFile g object zero in
   match err with
   | Some e => ((-1, Some e), calls)
   | None => ((field v, None), calls)
   end)
  = (decoded_time field zero (Read g BucketName object),
     [EvRead BucketName object]).
Proof.
  unfold unmarshalJSONFile, decoded_time.
  destruct (Read g BucketName object) as [contents [e|]]; [reflexivity|].
  destruct (json_Unmarshal contents zero) as [v [e|]]; reflexivity.
Qed.

(** C6: for every build, [GetStartedTime] and [GetFinishedTime] make one
    read each, of the same object [<StoragePath>/finished.json] of the
    bucket; the object [started.json] is another one and is not read;
    the two results differ by the decode target only. *)
Theorem GetStartedTime_reads_finished (g : GCS) (b : Build.t) :
  let object := path.Join [Build.StoragePath b; FinishedJSON] in
  GetStartedTime g b
  = (decoded_time Started_Timestamp zero_Started (Read g BucketName object),
     [EvRead BucketName object]) /\
  GetFinishedTime g b
  = (decoded_time Finished_Timestamp zero_Finished (Read g BucketName object),
     [EvRead BucketName object]) /\
  object <> path.Join [Build.StoragePath b; StartedJSON] /\
  (is_plain_path (Build.StoragePath b) = true ->
   object = (Build.StoragePath b ++ "/finished.json")%string).
Proof.
  cbv zeta. split; [|split; [|split]].
  - unfold GetStartedTime. apply unmarshalJSONFile_time.
  - unfold GetFinishedTime. apply unmarshalJSONFile_time.
  - rewrite !Join_name by reflexivity. intros E.
    apply (f_equal to_bytes) in E. rewrite !to_of_bytes in E.
    apply app_inv_head in E. discriminate E.
  - intros Hp. rewrite Join_plain by (repeat constructor; assumption).
    reflexivity.
Qed.

End StatusClaims.

Lemma GetStartedTime_reads_finished_witness :
  is_plain_path (Build.StoragePath (ci_build 3)) = true /\
  path.Join [Build.StoragePath (ci_build 3); FinishedJSON]
  = "logs/ci/3/finished.json"%string.
Proof.
  split; [reflexivity|].
  apply (@GetStartedTime_reads_finished example_Started example_Finished
           ci_gcs (ci_build 3)).
  reflexivity.
Defined.

(** * Properties of the rest of the package *)

(** ** The last element of a path, trailing bytes *)

Lemma split_rev_app (m r file : bytes) :
  slash_free m -> path.split_rev (m ++ r) file = path.split_rev r (rev m ++ file).
Proof.
  intros Hm. revert file. induction Hm as [|c m Hc Hm IH]; intros file;
    cbn [app path.split_rev rev]; [reflexivity|].
  rewrite Hc, IH, <- app_assoc. reflexivity.
Qed.

(** [path.Split] cuts a path after its last slash. *)
Lemma Split_dir_name (pre f : bytes) :
  dir_like pre -> slash_free f ->
  path.Split (of_bytes (pre ++ f)) = (of_bytes pre, of_bytes f).
Proof.
  intros Hpre Hf. unfold path.Split. rewrite to_of_bytes, rev_app_distr.
  rewrite split_rev_app by (apply Forall_rev; exact Hf).
  rewrite rev_involutive, app_nil_r.
  destruct Hpre as [-> | [q ->]].
  - reflexivity.
  - rewrite rev_app_distr. cbn [rev app path.split_rev].
    change (is_slash "/"%char) with true. cbv iota.
    cbn [rev]. now rewrite rev_involutive.
Qed.

Lemma trim_left_padding (cutset k m : bytes) :
  forallb (strings.in_cutset cutset) k = true ->
  match m with
  | [] => True
  | c :: _ => strings.in_cutset cutset c = false
  end ->
  strings.trim_left cutset (k ++ m) = m.
Proof.
  intros Hk Hm. induction k as [|c k IH]; cbn [app].
  - destruct m as [|c m]; [reflexivity|]. cbn [strings.trim_left]. now rewrite Hm.
  - cbn [forallb] in Hk. apply andb_prop in Hk. destruct Hk as [Hc Hk].
    cbn [strings.trim_left]. rewrite Hc. now apply IH.
Qed.

(** [strings.TrimRight] removes a padding of blanks and slashes after a
    path that ends with another byte. *)
Lemma TrimRight_padding (s : bytes) (pad : string) :
  is_padding pad = true ->
  match rev s with
  | [] => True
  | c :: _ => strings.in_cutset (to_bytes " /") c = false
  end ->
  strings.TrimRight (of_bytes s ++ pad) " /" = of_bytes s.
Proof.
  intros Hpad Hs. unfold strings.TrimRight.
  rewrite to_bytes_app, to_of_bytes, rev_app_distr.
  rewrite trim_left_padding.
  - now rewrite rev_involutive.
  - unfold is_padding in Hpad. rewrite forallb_forall in *.
    intros x Hx. apply Hpad. now apply in_rev.
  - exact Hs.
Qed.

Lemma join_prefix_dir_like (dir : string) : dir_like (join_prefix dir).
Proof.
  unfold join_prefix. destruct (to_bytes dir) as [|c d]; [now left|].
  unfold dir_prefix. destruct (clean_stack (c :: d)) as [rooted s].
  destruct (stack_elems s).
  - destruct rooted; [right; now exists [] | now left].
  - right. now eexists.
Qed.

(** The storage path of a build made from a job: what [path.Join] writes
    for the storage path of the job, then the identifier. *)
Lemma Job_NewBuild_path (j : Job.t) (id : Z) :
  Build.StoragePath (Job_NewBuild j id)
  = of_bytes (join_prefix (Job.StoragePath j) ++ strconv.FormatInt id).
Proof.
  cbn [Job_NewBuild Build.StoragePath]. rewrite Join_name by apply Itoa_is_name.
  unfold strconv.Itoa. now rewrite to_of_bytes.
Qed.

Lemma FormatInt_last_digit (i : Z) :
  exists c m, rev (strconv.FormatInt i) = c :: m /\ strconv.is_digit c = true.
Proof.
  destruct (FormatInt_spec i) as (ds & Hf & Hne & Hall & _).
  rewrite Hf, rev_app_distr.
  destruct (rev ds) as [|c m] eqn:E.
  - apply (f_equal (@rev ascii)) in E. rewrite rev_involutive in E. now subst ds.
  - exists c. eexists. split; [reflexivity|].
    rewrite Forall_forall in Hall. apply Hall, in_rev. rewrite E. now left.
Qed.

Lemma is_digit_not_padding (c : ascii) :
  strconv.is_digit c = true ->
  strings.in_cutset (to_bytes " /") c = false /\ Ascii.eqb c "010" = false.
Proof.
  destruct c as [b0 b1 b2 b3 b4 b5 b6 b7].
  destruct b0, b1, b2, b3, b4, b5, b6, b7; vm_compute; intros H;
    try discriminate H; split; reflexivity.
Qed.

Lemma FormatInt_slash_free (i : Z) : slash_free (strconv.FormatInt i).
Proof.
  pose proof (Itoa_is_name i) as H. unfold strconv.Itoa in H.
  rewrite to_of_bytes in H. apply is_name_spec in H. tauto.
Qed.

(** The last element of the storage path of a build made from a job is
    the rendering of its identifier, also after a padding. *)
Lemma last_element_NewBuild (j : Job.t) (id : Z) (pad : string) :
  is_padding pad = true ->
  last_element (Build.StoragePath (Job_NewBuild j id) ++ pad)%string
  = strconv.Itoa id.
Proof.
  intros Hpad. unfold last_element.
  rewrite Job_NewBuild_path, TrimRight_padding; [|exact Hpad|].
  - rewrite Split_dir_name
      by (apply join_prefix_dir_like || apply FormatInt_slash_free).
    reflexivity.
  - rewrite rev_app_distr.
    destruct (FormatInt_last_digit id) as (c & m & E & Hc).
    rewrite E. cbn [app]. now apply is_digit_not_padding.
Qed.

(** X1: the storage path of the build [job.NewBuild(id)], as it is or
    followed by blanks and slashes as a listing gives it, is read back by
    [getBuildIDFromBuildPath] as [id], for every job and every [id] of the
    range of [int]. *)
Theorem NewBuild_path_round_trip (j : Job.t) (id : Z) (pad : string) :
  strconv.minInt64 <= id <= strconv.maxInt64 ->
  is_padding pad = true ->
  getBuildIDFromBuildPath (Build.StoragePath (Job_NewBuild j id) ++ pad)%string
  = (id, None).
Proof.
  intros Hid Hpad. unfold getBuildIDFromBuildPath.
  pose proof (last_element_NewBuild j id pad Hpad) as Hlast.
  unfold last_element in Hlast.
  destruct (path.Split
              (strings.TrimRight
                 (Build.StoragePath (Job_NewBuild j id) ++ pad) " /"))
    as [dir buildIDStr].
  cbn [snd] in Hlast. subst buildIDStr.
  rewrite Atoi_Itoa by exact Hid. reflexivity.
Qed.

Lemma NewBuild_path_round_trip_witness :
  getBuildIDFromBuildPath
    (Build.StoragePath (Job_NewBuild ci_job 1287) ++ "/ ")%string
  = (1287, None).
Proof.
  apply (NewBuild_path_round_trip ci_job 1287 "/ "); [|reflexivity].
  unfold strconv.minInt64, strconv.maxInt64. lia.
Defined.

(** ** Discovery *)

Lemma build_id_of_range (child : string) (id : Z) :
  build_id_of child = Some id -> strconv.minInt64 <= id <= strconv.maxInt64.
Proof.
  unfold build_id_of. destruct (is_int_numeral (last_element child)) eqn:E;
    [|discriminate].
  intros H. inversion H; subst id. unfold is_int_numeral in E.
  apply andb_prop in E. destruct E as [E E2]. apply andb_prop in E.
  destruct E as [_ E1]. apply Z.leb_le in E1, E2. lia.
Qed.

Lemma build_id_of_NewBuild (j : Job.t) (id : Z) :
  strconv.minInt64 <= id <= strconv.maxInt64 ->
  build_id_of (Build.StoragePath (Job_NewBuild j id)) = Some id.
Proof.
  intros Hid.
  pose proof (last_element_NewBuild j id "" eq_refl) as H.
  assert (E : (Build.StoragePath (Job_NewBuild j id) ++ "")%string
              = Build.StoragePath (Job_NewBuild j id)).
  { apply to_bytes_inj. rewrite to_bytes_app. apply app_nil_r. }
  rewrite E in H. unfold build_id_of. rewrite H.
  destruct (Atoi_numeral (strconv.Itoa id)) as [Hok Hko].
  pose proof (Atoi_Itoa id Hid) as Hrt.
  destruct (is_int_numeral (strconv.Itoa id)).
  - rewrite Hok in Hrt by reflexivity. injection Hrt as Hv.
    cbv iota. f_equal. exact Hv.
  - destruct (Hko eq_refl) as [e He]. rewrite Hrt in He. discriminate He.
Qed.

(** The builds found are builds made from the job, with identifiers of
    the range of [int]. *)
Lemma GetBuilds_made_from_job (g : GCS) (j : Job.t) :
  Forall (fun b =>
            b = Job_NewBuild j (Build.BuildID b) /\
            strconv.minInt64 <= Build.BuildID b <= strconv.maxInt64)
         (GetBuilds g j).
Proof.
  unfold GetBuilds. rewrite GetBuilds_loop. cbn [app].
  generalize (ListDirectChildren g (Job.Bucket j) (Job.StoragePath j)) as children.
  induction children as [|child children IH]; cbn [flat_map]; [constructor|].
  destruct (build_id_of child) as [id|] eqn:E; cbn [app]; [|exact IH].
  constructor; [|exact IH].
  split; [reflexivity | exact (build_id_of_range child id E)].
Qed.

(** X2: every build that [GetBuilds] returns is the build
    [job.NewBuild(id)] of its identifier: it has the name of the job, the
    bucket [BucketName] of the package whatever the bucket of the job that
    was listed, an identifier in the range of [int], and a storage path
    that [getBuildIDFromBuildPath] reads back as its identifier; there are
    no more builds than listed children. *)
Theorem GetBuilds_builds (g : GCS) (j : Job.t) :
  Forall (fun b =>
            b = Job_NewBuild j (Build.BuildID b) /\
            Build.JobName b = Job.Name j /\
            Build.Bucket b = BucketName /\
            strconv.minInt64 <= Build.BuildID b <= strconv.maxInt64 /\
            getBuildIDFromBuildPath (Build.StoragePath b)
            = (Build.BuildID b, None))
         (GetBuilds g j) /\
  (List.length (GetBuilds g j)
   <= List.length (ListDirectChildren g (Job.Bucket j) (Job.StoragePath j)))%nat.
Proof.
  split.
  - pose proof (GetBuilds_made_from_job g j) as H.
    eapply Forall_impl; [|exact H].
    intros b [Hb Hr]. cbv beta.
    repeat split; try exact Hb; try apply Hr;
      try (rewrite Hb; reflexivity).
    pose proof (getBuildIDFromBuildPath_spec (Build.StoragePath b)) as Hs.
    assert (E : build_id_of (Build.StoragePath b) = Some (Build.BuildID b)).
    { rewrite Hb at 1. now apply build_id_of_NewBuild. }
    rewrite E in Hs. exact Hs.
  - unfold GetBuilds. rewrite GetBuilds_loop. cbn [app].
    generalize (ListDirectChildren g (Job.Bucket j) (Job.StoragePath j))
      as children.
    induction children as [|child children IH]; cbn [flat_map];
      [apply Nat.le_refl|].
    rewrite length_app. cbn [List.length].
    destruct (build_id_of child); cbn [List.length]; lia.
Qed.

(** X3: discovery is stable. When a listing gives back the storage paths
    of the builds found by [GetBuilds], in any bucket state, [GetBuilds]
    finds the same builds again, in the same order. *)
Theorem GetBuilds_relisted (g g' : GCS) (j : Job.t) :
  ListDirectChildren g' (Job.Bucket j) (Job.StoragePath j)
  = map Build.StoragePath (GetBuilds g j) ->
  GetBuilds g' j = GetBuilds g j.
Proof.
  intros H. pose proof (GetBuilds_made_from_job g j) as Hall.
  unfold GetBuilds at 1. rewrite GetBuilds_loop, H. cbn [app]. clear H.
  induction Hall as [|b builds [Hb Hr] Hall IH]; cbn [map flat_map].
  - reflexivity.
  - rewrite IH.
    assert (E : build_id_of (Build.StoragePath b) = Some (Build.BuildID b)).
    { rewrite Hb at 1. now apply build_id_of_NewBuild. }
    rewrite E. cbn [app]. now rewrite <- Hb.
Qed.

Lemma GetBuilds_relisted_witness : GetBuilds relisted_gcs ci_job = GetBuilds ci_gcs ci_job.
Proof.
  apply (GetBuilds_relisted ci_gcs relisted_gcs ci_job). reflexivity.
Defined.

(** X4: [GetFinishedBuilds] returns, in the order of discovery, the builds
    of [GetBuilds] whose [finished.json] exists, and only them: a build is
    returned if and only if it is discovered and finished. *)
Theorem GetFinishedBuilds_spec (g : GCS) (j : Job.t) :
  GetFinishedBuilds g j = filter (IsFinished g) (GetBuilds g j) /\
  (forall b, In b (GetFinishedBuilds g j) <->
             In b (GetBuilds g j) /\
             Exist g BucketName (path.Join [Build.StoragePath b; FinishedJSON])
             = true) /\
  (List.length (GetFinishedBuilds g j) <= List.length (GetBuilds g j))%nat.
Proof.
  rewrite GetFinishedBuilds_filter. split; [reflexivity|]. split.
  - intros b. apply filter_In.
  - apply filter_length_le.
Qed.

(** ** The latest build number *)

(** X5: [GetLatestBuildNumber] reads [latest-build.txt] under the storage
    path of the job; a failed read gives its error; otherwise one line feed
    at the end of the contents, if any, is left out and the rest has to be
    a numeral of the range of [int], whose value is returned; anything else
    (blanks, a second line feed, a carriage return, no digit) gives an
    error. The number that comes with an error is always 0. *)
Theorem GetLatestBuildNumber_spec (g : GCS) (j : Job.t) :
  match Read g BucketName (path.Join [Job.StoragePath j; Latest]) with
  | (_, Some e) => GetLatestBuildNumber g j = (0, Some e)
  | (contents, None) =>
      let s := strings.TrimSuffix contents newline in
      if is_int_numeral s
      then GetLatestBuildNumber g j = (numeral_value (to_bytes s), None)
      else exists e, GetLatestBuildNumber g j = (0, Some e)
  end /\
  (forall n e, GetLatestBuildNumber g j = (n, Some e) -> n = 0).
Proof.
  assert (H : match Read g BucketName (path.Join [Job.StoragePath j; Latest]) with
              | (_, Some e) => GetLatestBuildNumber g j = (0, Some e)
              | (contents, None) =>
                  let s := strings.TrimSuffix contents newline in
                  if is_int_numeral s
                  then GetLatestBuildNumber g j = (numeral_value (to_bytes s), None)
                  else exists e, GetLatestBuildNumber g j = (0, Some e)
              end).
  { unfold GetLatestBuildNumber. fold newline.
    destruct (Read g BucketName (path.Join [Job.StoragePath j; Latest]))
      as [contents [e|]]; [reflexivity|].
    cbv zeta. destruct (Atoi_numeral (strings.TrimSuffix contents newline))
      as [Hok Hko].
    destruct (is_int_numeral (strings.TrimSuffix contents newline)).
    - rewrite Hok by reflexivity. reflexivity.
    - destruct (Hko eq_refl) as [e He]. unfold wrap_num.
      destruct (strconv.Atoi (strings.TrimSuffix contents newline)) as [n err].
      cbn [snd] in He. subst err. cbn. now eexists. }
  split; [exact H|].
  intros n e Hn.
  destruct (Read g BucketName (path.Join [Job.StoragePath j; Latest]))
    as [contents [e'|]].
  - rewrite H in Hn. now inversion Hn.
  - cbv zeta in H.
    destruct (is_int_numeral (strings.TrimSuffix contents newline)).
    + rewrite H in Hn. discriminate Hn.
    + destruct H as [e' H]. rewrite H in Hn. now inversion Hn.
Qed.

Lemma GetLatestBuildNumber_spec_witness :
  fst (GetLatestBuildNumber ci_gcs ci_job) = 0.
Proof.
  destruct (GetLatestBuildNumber_spec ci_gcs ci_job) as [_ H].
  apply (H (fst (GetLatestBuildNumber ci_gcs ci_job))
           (StorageError "object doesn't exist")).
  reflexivity.
Defined.

Lemma TrimSuffix_newline (s : string) :
  strings.TrimSuffix (s ++ newline) newline = s.
Proof.
  unfold strings.TrimSuffix. rewrite to_bytes_app, rev_app_distr.
  cbn [newline to_bytes list_ascii_of_string rev app strings.has_prefix].
  change (Ascii.eqb "010" "010") with true. cbv iota.
  now rewrite rev_involutive, of_to_bytes.
Qed.

Lemma TrimSuffix_no_newline (s : bytes) (c : ascii) (m : bytes) :
  rev s = c :: m -> Ascii.eqb c "010" = false ->
  strings.TrimSuffix (of_bytes s) newline = of_bytes s.
Proof.
  intros E Hc. unfold strings.TrimSuffix. rewrite to_of_bytes, E.
  cbn [newline to_bytes list_ascii_of_string rev app strings.has_prefix].
  now rewrite Ascii.eqb_sym, Hc.
Qed.

(** X6: the latest build number is read back: when [latest-build.txt]
    holds the decimal rendering of a number of the range of [int], followed
    by one line feed or by nothing, [GetLatestBuildNumber] returns this
    number and no error. *)
Theorem GetLatestBuildNumber_round_trip (g : GCS) (j : Job.t) (n : Z)
    (ending : string) :
  strconv.minInt64 <= n <= strconv.maxInt64 ->
  ending = ""%string \/ ending = newline ->
  Read g BucketName (path.Join [Job.StoragePath j; Latest])
  = ((strconv.Itoa n ++ ending)%string, None) ->
  GetLatestBuildNumber g j = (n, None).
Proof.
  intros Hn Hend Hread. unfold GetLatestBuildNumber. rewrite Hread.
  fold newline.
  assert (E : strings.TrimSuffix (strconv.Itoa n ++ ending) newline
              = strconv.Itoa n).
  { destruct Hend as [-> | ->].
    - assert (E0 : (strconv.Itoa n ++ "")%string = strconv.Itoa n)
        by (apply to_bytes_inj; rewrite to_bytes_app; apply app_nil_r).
      rewrite E0. unfold strconv.Itoa.
      destruct (FormatInt_last_digit n) as (c & m & Er & Hc).
      apply (TrimSuffix_no_newline _ c m Er).
      now apply is_digit_not_padding.
    - apply TrimSuffix_newline. }
  rewrite E, Atoi_Itoa by exact Hn. reflexivity.
Qed.

Lemma GetLatestBuildNumber_round_trip_witness :
  GetLatestBuildNumber latest_gcs ci_job = (42, None).
Proof.
  apply (GetLatestBuildNumber_round_trip latest_gcs ci_job 42 newline).
  - unfold strconv.minInt64, strconv.maxInt64. lia.
  - right. reflexivity.
  - reflexivity.
Defined.

(** ** The objects of a build *)

Lemma Join_two_cleaned (dir f : string) :
  is_name (to_bytes f) = true ->
  exists p, path.Join [dir; f] = of_bytes (clean_spec p) /\
            clean_spec p = join_prefix dir ++ to_bytes f.
Proof.
  intros Hf. exists (path.join_loop [] [dir; f]).
  assert (E : path.Join [dir; f]
              = of_bytes (clean_spec (path.join_loop [] [dir; f]))).
  { unfold path.Join. rewrite (total_size_pos _ f).
    - now rewrite clean_bytes_spec.
    - right. now left.
    - intros ->. discriminate Hf. }
  split; [exact E|].
  rewrite Join_name in E by exact Hf.
  apply (f_equal to_bytes) in E. now rewrite !to_of_bytes in E.
Qed.

Lemma Job_NewBuild_path_cleaned (j : Job.t) (id : Z) :
  exists p, Build.StoragePath (Job_NewBuild j id) = of_bytes (clean_spec p) /\
            clean_spec p <> ["."%char] /\ clean_spec p <> ["/"%char].
Proof.
  destruct (Join_two_cleaned (Job.StoragePath j) (strconv.Itoa id)
              (Itoa_is_name id)) as (p & E1 & E2).
  exists p. split; [exact E1|].
  unfold strconv.Itoa in E2. rewrite to_of_bytes in E2.
  destruct (FormatInt_last_digit id) as (c & m & Er & Hc).
  split; intros E; rewrite E in E2; apply (f_equal (@rev ascii)) in E2;
    rewrite rev_app_distr, Er in E2; cbn in E2; inversion E2; subst c;
    discriminate Hc.
Qed.

(** X7: for every job and identifier, the storage path of the build
    [job.NewBuild(id)] is a cleaned path, and the objects of the build are
    directly under it: the log at [<StoragePath>/build-log.txt], the
    artifacts at [<StoragePath>/artifacts], and the markers that
    [IsStarted] and [IsFinished] look for at [<StoragePath>/started.json]
    and [<StoragePath>/finished.json]. *)
Theorem NewBuild_object_paths (g : GCS) (j : Job.t) (id : Z) :
  let b := Job_NewBuild j id in
  let dir := Build.StoragePath b in
  path.Clean dir = dir /\
  GetBuildLogPath b = (dir ++ "/build-log.txt")%string /\
  GetArtifactsDir b = (dir ++ "/artifacts")%string /\
  IsStarted g b = Exist g BucketName (dir ++ "/started.json")%string /\
  IsFinished g b = Exist g BucketName (dir ++ "/finished.json")%string.
Proof.
  cbv zeta. destruct (Job_NewBuild_path_cleaned j id) as (p & E & Hdot & Hroot).
  unfold GetBuildLogPath, GetArtifactsDir, IsStarted, IsFinished.
  rewrite E.
  rewrite !Join_clean_name by (assumption || reflexivity).
  repeat split.
  rewrite Clean_spec, to_of_bytes. now rewrite clean_spec_idempotent.
Qed.

(** X8: for every build, whatever its storage path, the four objects that
    the package derives from it (started marker, finished marker, log,
    artifacts directory) have pairwise different paths. *)
Theorem build_objects_distinct (b : Build.t) :
  let started := path.Join [Build.StoragePath b; StartedJSON] in
  let finished := path.Join [Build.StoragePath b; FinishedJSON] in
  started <> finished /\
  started <> GetBuildLogPath b /\
  started <> GetArtifactsDir b /\
  finished <> GetBuildLogPath b /\
  finished <> GetArtifactsDir b /\
  GetBuildLogPath b <> GetArtifactsDir b.
Proof.
  cbv zeta. unfold GetBuildLogPath, GetArtifactsDir.
  rewrite !Join_name by reflexivity.
  repeat split; intros E; apply (f_equal to_bytes) in E;
    rewrite !to_of_bytes in E; apply app_inv_head in E; discriminate E.
Qed.

(** X9: the storage path that [NewJob] gives to a job of a known type is
    never empty and never starts at the root, and it is already cleaned:
    [path.Clean] leaves it as it is. *)
Theorem NewJob_path_clean_relative (fatalf : fatal_hook)
    (jobName jobType repoName : string) (pullID : Z) (j : Job.t) :
  valid_job_type jobType ->
  NewJob fatalf jobName jobType repoName pullID = Returns j ->
  relative (to_bytes (Job.StoragePath j)) /\
  path.Clean (Job.StoragePath j) = Job.StoragePath j.
Proof.
  intros Hv Hj.
  destruct (NewJob_path_relative _ _ _ _ _ _ Hv Hj) as (y & Hy & Hp).
  rewrite Hp, to_of_bytes. split.
  - destruct (clean_spec_relative y Hy) as [E | H]; [now rewrite E | exact H].
  - rewrite Clean_spec, to_of_bytes. now rewrite clean_spec_idempotent.
Qed.

Lemma NewJob_path_clean_relative_witness :
  path.Clean "pr-logs/pull/batch/ci" = "pr-logs/pull/batch/ci"%string.
Proof.
  apply (NewJob_path_clean_relative logFatalf "./ci//" BatchJob "serving" 7
           (Job.mk "./ci//" BatchJob BucketName "" "pr-logs/pull/batch/ci" 0 [])).
  - right. right. right. reflexivity.
  - reflexivity.
Defined.

(** ** Log scanning and ranking *)

(** X10: whenever [ParseLog] returns an error, it is the error that
    [NewReader] gave, with a reader that is not nil, and no fragment is
    returned with it: fragments and an error never come together. *)
Theorem ParseLog_error_is_open_error (g : GCS) (b : Build.t)
    (checkLog : list string -> option string) (logs : list string) (e : error) :
  fst (ParseLog g b checkLog) = Returns (logs, Some e) ->
  logs = [] /\
  snd (NewReader g (Build.Bucket b) (GetBuildLogPath b)) = Some e /\
  fst (NewReader g (Build.Bucket b) (GetBuildLogPath b)) <> None.
Proof.
  unfold ParseLog.
  destruct (NewReader g (Build.Bucket b) (GetBuildLogPath b)) as [[r|] [e'|]];
    cbn [Reader_Close fst snd]; intros H; try discriminate H.
  inversion H; subst. repeat split. discriminate.
Qed.

Lemma ParseLog_error_is_open_error_witness :
  snd (NewReader failing_gcs (Build.Bucket (ci_build 1))
                 (GetBuildLogPath (ci_build 1)))
  = Some (StorageError "permission denied").
Proof.
  apply (ParseLog_error_is_open_error failing_gcs (ci_build 1) keep_errors []
           (StorageError "permission denied")).
  reflexivity.
Defined.

Lemma StronglySorted_before {A : Type} (R : A -> A -> Prop)
    (l1 l2 l3 : list A) (a b : A) :
  StronglySorted R (l1 ++ a :: l2 ++ b :: l3) -> R a b.
Proof.
  induction l1 as [|x l1 IH]; cbn [app]; intros H; inversion H as [|? ? Hs Hx];
    subst.
  - rewrite Forall_forall in Hx. apply Hx, in_or_app. right. now left.
  - now apply IH.
Qed.

Section RankingOrder.

Context {unmarshalStarted : Unmarshaler Started}.
Variable sort_Slice : sorter.

Lemma GetLatestBuilds_firstn (g : GCS) (j : Job.t) (count : Z) :
  0 <= count ->
  GetLatestBuilds sort_Slice g j count
  = Returns (firstn (Z.to_nat count)
                    (sort_Slice _ (startedLess g) (GetFinishedBuilds g j))).
Proof.
  intros Hc. unfold GetLatestBuilds.
  set (sorted := sort_Slice _ (startedLess g) (GetFinishedBuilds g j)).
  destruct (Z.of_nat (List.length sorted) <? count) eqn:E.
  - apply Z.ltb_lt in E. rewrite firstn_all2 by lia. reflexivity.
  - unfold slice_to. rewrite E.
    replace (count <? 0) with false by (symmetry; apply Z.ltb_ge; lia).
    reflexivity.
Qed.

Hypothesis sort_ok : sort_contract sort_Slice.

(** X11: in the list that [GetLatestBuilds] returns, of two builds the
    one that comes first has the later, or the same, started time when
    both times are read, and a build whose time cannot be read is never
    before a build whose time is read: the most recent builds come first,
    the builds without a readable time last. *)
Theorem GetLatestBuilds_most_recent_first (g : GCS) (j : Job.t) (count : Z)
    (l1 l2 l3 : list Build.t) (a b : Build.t) :
  0 <= count ->
  GetLatestBuilds sort_Slice g j count = Returns (l1 ++ a :: l2 ++ b :: l3) ->
  match started_time g a, started_time g b with
  | Some ta, Some tb => tb <= ta
  | None, Some _ => False
  | _, None => True
  end.
Proof.
  intros Hc H. rewrite GetLatestBuilds_firstn in H by exact Hc.
  inversion H as [E].
  assert (Hs : sorted_by (startedLess g) (l1 ++ a :: l2 ++ b :: l3)).
  { rewrite <- E. apply StronglySorted_firstn.
    apply (sort_sorts _ sort_ok). apply startedLess_order. }
  apply StronglySorted_before in Hs. rewrite startedLess_spec in Hs.
  destruct (started_time g a) as [ta|], (started_time g b) as [tb|];
    try exact I.
  - apply Z.ltb_ge in Hs. exact Hs.
  - discriminate Hs.
Qed.

End RankingOrder.

Lemma GetLatestBuilds_most_recent_first_witness :
  match @started_time example_Started ci_gcs (ci_build 3),
        @started_time example_Started ci_gcs (ci_build 1) with
  | Some ta, Some tb => tb <= ta
  | None, Some _ => False
  | _, None => True
  end.
Proof.
  apply (@GetLatestBuilds_most_recent_first example_Started insertionSort
           insertionSort_contract ci_gcs ci_job 3
           [] [] [ci_build 2] (ci_build 3) (ci_build 1)).
  - lia.
  - reflexivity.
Defined.

Section Comparator.

Context {unmarshalStarted : Unmarshaler Started}.
Context {unmarshalFinished : Unmarshaler Finished}.

(** X12: the comparator that [GetLatestBuilds] gives to [sort.Slice] is
    an ordering as [sort.Slice] asks for (irreflexive, transitive, with a
    transitive negation), and two builds are tied under it, neither less
    than the other, exactly when they have the same started time or both
    have none that can be read. *)
Theorem startedLess_ties (g : GCS) :
  strict_weak_order (startedLess g) /\
  (forall a b,
     startedLess g a b = false /\ startedLess g b a = false <->
     started_time g a = started_time g b).
Proof.
  split; [apply startedLess_order|].
  intros a b. rewrite !startedLess_spec.
  destruct (started_time g a) as [ta|], (started_time g b) as [tb|].
  - rewrite !Z.ltb_ge. split.
    + intros [H1 H2]. f_equal. lia.
    + intros H. inversion H. lia.
  - split; [intros [H _]; discriminate H | discriminate].
  - split; [intros [_ H]; discriminate H | discriminate].
  - split; [reflexivity | now split].
Qed.

(** X13: [GetStartedTime] and [GetFinishedTime] return the time -1 with
    every error; when the read of [finished.json] fails, both return its
    error, and nothing is decoded. *)
Theorem time_accessors_sentinel (g : GCS) (b : Build.t) :
  (forall t e, fst (GetStartedTime g b) = (t, Some e) -> t = -1) /\
  (forall t e, fst (GetFinishedTime g b) = (t, Some e) -> t = -1) /\
  (forall contents e,
     Read g BucketName (path.Join [Build.StoragePath b; FinishedJSON])
     = (contents, Some e) ->
     fst (GetStartedTime g b) = (-1, Some e) /\
     fst (GetFinishedTime g b) = (-1, Some e)).
Proof.
  unfold GetStartedTime, GetFinishedTime.
  rewrite !unmarshalJSONFile_time. cbn [fst]. unfold decoded_time.
  destruct (Read g BucketName (path.Join [Build.StoragePath b; FinishedJSON]))
    as [contents [e|]].
  - split; [|split].
    + intros t e' H. now inversion H.
    + intros t e' H. now inversion H.
    + intros c e' H. inversion H. now split.
  - split; [|split].
    + destruct (json_Unmarshal contents zero_Started) as [v [e|]];
        intros t e' H; now inversion H.
    + destruct (json_Unmarshal contents zero_Finished) as [v [e|]];
        intros t e' H; now inversion H.
    + intros c e H. discriminate H.
Qed.

End Comparator.

Lemma time_accessors_sentinel_witness :
  fst (@GetStartedTime example_Started ci_gcs (ci_build 4))
  = (-1, Some (StorageError "object doesn't exist")) /\
  fst (@GetFinishedTime example_Finished ci_gcs (ci_build 4))
  = (-1, Some (StorageError "object doesn't exist")).
Proof.
  destruct (@time_accessors_sentinel example_Started example_Finished ci_gcs
              (ci_build 4)) as (_ & _ & H).
  apply (H ""%string). reflexivity.
Defined.
